(** * rtsp_to_mkv_segments: the ffmpeg supervisor

    A shallow embedding of [rtsp_to_mkv_segments.py]: argument validation,
    the process-group terminator [_kill_process_group], the signal handler
    [handle_sig] and the launch / poll / restart loop of [main].

    Conventions.
    - Python [int]s are [Z]; readings of [time.monotonic()] and durations in
      seconds are rationals [Q] (the floats the script computes are read as
      the numbers they denote).
    - Everything the script asks of the operating system (the clock, the
      outcome of [subprocess.Popen], [proc.poll()], [os.getpgid],
      [os.killpg]) is answered by an explicit environment.
    - What the script does to the outside world is recorded as a list of
      [event]s, in program order.  Wall-clock timestamps inside log lines
      ([datetime.now().isoformat()]) are left out of the log-line
      constructors. *)

From Stdlib Require Import ZArith QArith Bool List String Ascii Lia Lqa.
From Stdlib Require Import DecimalString DecimalPos DecimalZ.
Import ListNotations.

Open Scope Z_scope.

(** ** Exceptions, signals, events *)

(** The exception classes the script distinguishes; [OSError] stands for any
    other exception a system call may raise, [OverflowError] is what
    [timedelta] and [datetime] arithmetic raise out of range. *)
Inductive exn : Type :=
  | ProcessLookupError
  | FileNotFoundError
  | PermissionError
  | OSError
  | OverflowError.

Inductive result (A : Type) : Type :=
  | Ok (a : A)
  | Raise (x : exn).
Arguments Ok {A} a.
Arguments Raise {A} x.

Inductive signum : Type := SIGINT | SIGTERM | SIGKILL.

(** Lines written to the log file through [logf.write]. *)
Inductive log_line : Type :=
  | LSessionStarted
  | LCmd (cmd : list string)
  | LMaxDurationBeforeLaunch (elapsed : Q)
  | LLaunching (idx : Z)
  | LMaxDurationMidRun (elapsed : Q)
  | LSentSIGTERM (pgid : Z)
  | LSentSIGKILL (pgid : Z)
  | LSessionStopped
  | LExited (rc : option Z)
  | LMaxRestarts (limit : Z)
  | LSessionEnded.

(** Lines printed on standard output. *)
Inductive message : Type :=
  | MReceivedSignal (sg : signum)
  | MBanner
  | MBannerCut (lines : nat)
  | MMaxDurationNotLaunching (elapsed : Q) (limit : Z)
  | MLaunching (idx : Z)
  | MFfmpegNotFound
  | MCannotExecute
  | MMaxDurationStopping (elapsed : Q) (limit : Z)
  | MExited (rc : option Z)
  | MCleanExitNote
  | MMaxRestarts (limit : Z)
  | MRestartingIn (delay : Z)
  | MDone (total_seconds : Z) (launches : Z).

Inductive event : Type :=
  | EParserError (msg : string)
  | EMakedirs (path : string)
  | EInstallHandler (sg : signum)
  | EOpenLog (path : string)
  | ECloseLog
  | EWrite (l : log_line)
  | EPrint (m : message)
  | EMonotonic (t : Q)
  | ESleep (d : Q)
  | EPopen (r : result Z)
  | EPoll (r : option Z)
  | EGetpgid (r : result Z)
  | EKillpg (pgid : Z) (sg : signum) (r : result unit).

Definition Qlt_bool (x y : Q) : bool := negb (Qle_bool y x).

(** ** The process-group terminator *)

Module Terminator.

(** What the operating system answers while [_kill_process_group] runs:
    [monotonic k] is the k-th reading of [time.monotonic()] (reading 0 is the
    one the deadline is computed from), [polls k] the k-th [proc.poll()]. *)
Record env : Type := {
  getpgid : result Z;
  killpg : signum -> result unit;
  monotonic : nat -> Q;
  polls : nat -> option Z
}.

Definition GRACE : Q := 3.
Definition POLL_INTERVAL : Q := 1 # 5.

Inductive waited : Type := ChildExited | GraceExpired.

(** [while time.monotonic() < deadline: if proc.poll() is not None: return;
    time.sleep(0.2)], entered before its [k]-th test. *)
Fixpoint wait_for_exit (fuel : nat) (te : env) (deadline : Q) (k : nat)
  : option (waited * list event) :=
  match fuel with
  | O => None
  | S fuel' =>
      let now := monotonic te (S k) in
      if Qlt_bool now deadline then
        match polls te k with
        | Some rc => Some (ChildExited, [EMonotonic now; EPoll (Some rc)])
        | None =>
            match wait_for_exit fuel' te deadline (S k) with
            | Some (w, evs) =>
                Some (w, EMonotonic now :: EPoll None
                           :: ESleep POLL_INTERVAL :: evs)
            | None => None
            end
        end
      else Some (GraceExpired, [EMonotonic now])
  end.

Definition _kill_process_group (fuel : nat) (te : env)
  : option (result unit * list event) :=
  match getpgid te with
  | Raise ProcessLookupError => Some (Ok tt, [EGetpgid (Raise ProcessLookupError)])
  | Raise x => Some (Raise x, [EGetpgid (Raise x)])
  | Ok pgid =>
      match killpg te SIGTERM with
      | Raise ProcessLookupError =>
          Some (Ok tt, [EGetpgid (Ok pgid);
                        EKillpg pgid SIGTERM (Raise ProcessLookupError)])
      | Raise x =>
          Some (Raise x, [EGetpgid (Ok pgid); EKillpg pgid SIGTERM (Raise x)])
      | Ok _ =>
          let t0 := monotonic te 0 in
          let pre := [EGetpgid (Ok pgid); EKillpg pgid SIGTERM (Ok tt);
                      EWrite (LSentSIGTERM pgid); EMonotonic t0] in
          match wait_for_exit fuel te (t0 + GRACE)%Q 0 with
          | None => None
          | Some (ChildExited, evs) => Some (Ok tt, pre ++ evs)
          | Some (GraceExpired, evs) =>
              match killpg te SIGKILL with
              | Ok _ =>
                  Some (Ok tt, pre ++ evs ++ [EKillpg pgid SIGKILL (Ok tt);
                                              EWrite (LSentSIGKILL pgid)])
              | Raise ProcessLookupError =>
                  Some (Ok tt, pre ++ evs ++
                               [EKillpg pgid SIGKILL (Raise ProcessLookupError)])
              | Raise x =>
                  Some (Raise x, pre ++ evs ++ [EKillpg pgid SIGKILL (Raise x)])
              end
          end
      end
  end.

(** Observations on a trace. *)
Definition is_poll (ev : event) : bool :=
  match ev with EPoll _ => true | _ => false end.
Definition is_wait (ev : event) : bool :=
  match ev with EPoll _ | ESleep _ | EMonotonic _ => true | _ => false end.

Definition count (p : event -> bool) (evs : list event) : nat :=
  List.length (filter p evs).

(** Total time spent in [time.sleep]. *)
Fixpoint slept (evs : list event) : Q :=
  match evs with
  | [] => 0
  | ESleep d :: evs' => d + slept evs'
  | _ :: evs' => slept evs'
  end.

(** The events that follow the first [os.killpg(pgid, SIGKILL)]. *)
Fixpoint after_sigkill (evs : list event) : option (list event) :=
  match evs with
  | [] => None
  | EKillpg _ SIGKILL _ :: evs' => Some evs'
  | _ :: evs' => after_sigkill evs'
  end.

(** [ticks n] is the time [n] sleeps of one poll interval take. *)
Fixpoint ticks (n : nat) : Q :=
  match n with
  | O => 0
  | S n' => ticks n' + POLL_INTERVAL
  end.

(** The clock never goes backwards, a [time.sleep(0.2)] lasts at least
    0.2 s, and two consecutive readings are at most 0.2 s apart: polling
    and signalling take no time of their own. *)
Definition ideal_clock (te : env) : Prop :=
  (forall k, monotonic te k <= monotonic te (S k))%Q /\
  (forall k, monotonic te (S k) + POLL_INTERVAL <= monotonic te (S (S k)))%Q /\
  (forall k, monotonic te (S k) <= monotonic te k + POLL_INTERVAL)%Q.

(** Everything the terminator does is a system call, a clock reading, a
    sleep, or one of its two log lines. *)
Definition is_terminator_event (ev : event) : bool :=
  match ev with
  | EGetpgid _ | EKillpg _ _ _ | EMonotonic _ | ESleep _ | EPoll _
  | EWrite (LSentSIGTERM _) | EWrite (LSentSIGKILL _) => true
  | _ => false
  end.

(** A child that ignores SIGTERM, observed on an ideal clock started at
    100 s. *)
Definition stubborn_child : env := {|
  getpgid := Ok 4242;
  killpg := fun _ => Ok tt;
  monotonic := fun k => (100 + ticks (pred k))%Q;
  polls := fun _ => None
|}.

(** A child that is gone before the terminator looks for it, and one that
    disappears while the terminator runs. *)
Definition vanished_child : env := {|
  getpgid := Raise ProcessLookupError;
  killpg := fun _ => Raise ProcessLookupError;
  monotonic := fun k => (100 + ticks (pred k))%Q;
  polls := fun _ => Some 0
|}.

Definition vanishing_child : env := {|
  getpgid := Ok 4242;
  killpg := fun sg => match sg with
                      | SIGKILL => Raise ProcessLookupError
                      | _ => Ok tt
                      end;
  monotonic := fun k => (100 + ticks (pred k))%Q;
  polls := fun _ => None
|}.

Definition is_sleep (ev : event) : bool :=
  match ev with ESleep _ => true | _ => false end.

(** A poll that found the child still running. *)
Definition is_poll_none (ev : event) : bool :=
  match ev with EPoll None => true | _ => false end.

(** A clock reading that is before [deadline]. *)
Definition is_reading_before (deadline : Q) (ev : event) : bool :=
  match ev with EMonotonic t => Qlt_bool t deadline | _ => false end.

(** Whatever the clock does, no reading the terminator takes is as late as
    grace period plus one poll interval after the first. *)
Definition returns_within_grace_and_interval (te : env) : Prop :=
  forall fuel r evs,
    _kill_process_group fuel te = Some (r, evs) ->
    forall t, In (EMonotonic t) evs ->
              (t < monotonic te 0 + GRACE + POLL_INTERVAL)%Q.

(** A child that ignores SIGTERM on a loaded machine: every round of the
    wait loop (poll and sleep) takes 0.7 s. *)
Definition sluggish_child : env := {|
  getpgid := Ok 4242;
  killpg := fun _ => Ok tt;
  monotonic := fun k => (100 + inject_Z (Z.of_nat (pred k)) * (7 # 10))%Q;
  polls := fun _ => None
|}.

End Terminator.

(** ** The supervisor *)

Module Supervisor.

(** The parsed command line ([argparse] has already converted the integer
    options). *)
Record Args : Type := {
  rtsp : string;
  out : string;
  segment : Z;
  tcp : bool;
  restart_delay : Z;
  max_restarts : Z;
  max_duration : Z;
  log : string;
  extra_ffmpeg_args : string
}.

(** What the system answers to the calls of the set-up that can fail:
    [os.makedirs] for the output directory and for the directory of the
    log, [datetime.now() + timedelta(seconds=max_duration)] in the banner
    (out of range when the date would pass the year 9999), and
    [open(abs_log, "a", buffering=1)]. *)
Record startup : Type := {
  makedirs_out : result unit;
  makedirs_log : result unit;
  deadline_date : result unit;
  open_log : result unit
}.

(** Values [main] computes once, before the loop, and never changes:
    [abs_log = os.path.abspath(args.log)], its [os.path.dirname], the
    command built by [build_ffmpeg_cmd], and the first clock reading;
    with them, the answers the set-up gets. *)
Record session : Type := {
  abs_log : string;
  log_dir : string;
  cmd : list string;
  session_start : Q;
  answers : startup
}.

(** What the operating system answers to one step of the loop. *)
Record oracle : Type := {
  o_clock : Q;
  o_popen : result Z;
  o_poll : option Z;
  o_kill : Terminator.env;
  o_fuel : nat
}.

(** How the process ended: [main] returned, [sys.exit(status)] (also behind
    [p.error]), or an exception nobody caught. *)
Inductive halt : Type :=
  | Returned
  | SysExit (status : Z)
  | Uncaught (x : exn).

Definition exit_status (h : halt) : Z :=
  match h with
  | Returned => 0
  | SysExit status => status
  | Uncaught _ => 1
  end.

(** Program points of the loop, between which a signal may be delivered. *)
Inductive loc : Type :=
  | AtLoopHead
  | AtGuard
  | AtLaunch
  | AtPoll (pid : Z)
  | AtTick (pid : Z)
  | AtStopCheck (pid : Z) (returncode : option Z)
  | AtDelay (remaining : nat)
  | AtEnd
  | Halted (h : halt).

Record state : Type := {
  stop : bool;
  restarts : Z;
  pc : loc
}.

Definition goto (s : state) (l : loc) : state :=
  {| stop := stop s; restarts := restarts s; pc := l |}.

Definition set_stop (s : state) : state :=
  {| stop := true; restarts := restarts s; pc := pc s |}.

(** *** Argument validation and set-up *)

Definition validate (a : Args) : option string :=
  if segment a <=? 0 then Some "--segment must be a positive integer."%string
  else if restart_delay a <? 0 then Some "--restart-delay must be >= 0."%string
  else if max_restarts a <? 0 then Some "--max-restarts must be >= 0."%string
  else if max_duration a <? 0 then Some "--max-duration must be >= 0."%string
  else None.

Definition ensure_dir (path : string) : list event :=
  match path with
  | EmptyString => []
  | _ => [EMakedirs path]
  end.

(** The events of a set-up that goes through. *)
Definition setup (a : Args) (ss : session) : list event :=
  ensure_dir (out a) ++ ensure_dir (log_dir ss) ++
  [EInstallHandler SIGINT; EInstallHandler SIGTERM;
   EMonotonic (session_start ss); EPrint MBanner;
   EOpenLog (abs_log ss); EWrite LSessionStarted; EWrite (LCmd (cmd ss))].

(** [ensure_dir(path)] calls [os.makedirs] only for a non-empty path, and
    fails when that call does. *)
Definition ensure_dir_raises (path : string) (answer : result unit)
  : option exn :=
  match path, answer with
  | EmptyString, _ => None
  | _, Raise x => Some x
  | _, Ok _ => None
  end.

(** [timedelta(seconds=n)] raises [OverflowError] when the number of days,
    [n // 86400], has a magnitude above 999999999. *)
Definition timedelta_overflows (seconds : Z) : bool :=
  999999999 <? Z.abs (seconds / 86400).

(** Where the banner stops, if it does: after its first three lines when
    [timedelta(seconds=args.segment)] overflows, after the fourth when the
    stop time cannot be computed (only looked at for a maximum duration
    other than 0). *)
Definition banner_raises (a : Args) (st : startup) : option (nat * exn) :=
  if timedelta_overflows (segment a) then Some (3%nat, OverflowError)
  else if max_duration a =? 0 then None
  else if timedelta_overflows (max_duration a) then Some (4%nat, OverflowError)
  else
    match deadline_date st with
    | Raise x => Some (4%nat, x)
    | Ok _ => None
    end.

(** The set-up of [main], from the creation of the directories to the two
    header lines of the log: its events, and the exception that ended it
    if one did. *)
Definition set_up (a : Args) (ss : session) : list event * option exn :=
  let st := answers ss in
  match ensure_dir_raises (out a) (makedirs_out st) with
  | Some x => (ensure_dir (out a), Some x)
  | None =>
      match ensure_dir_raises (log_dir ss) (makedirs_log st) with
      | Some x => (ensure_dir (out a) ++ ensure_dir (log_dir ss), Some x)
      | None =>
          let started :=
            ensure_dir (out a) ++ ensure_dir (log_dir ss) ++
            [EInstallHandler SIGINT; EInstallHandler SIGTERM;
             EMonotonic (session_start ss)] in
          match banner_raises a st with
          | Some (lines, x) =>
              (started ++ [EPrint (MBannerCut lines)], Some x)
          | None =>
              match open_log st with
              | Raise x => (started ++ [EPrint MBanner], Some x)
              | Ok _ => (setup a ss, None)
              end
          end
      end
  end.

(** *** The signal handler *)

(** [signal.signal(signal.SIGINT, handle_sig)] and the same for SIGTERM. *)
Definition installed (sg : signum) : bool :=
  match sg with
  | SIGINT | SIGTERM => true
  | SIGKILL => false
  end.

Definition handle_sig (s : state) (sg : signum) : state * list event :=
  (set_stop s, [EPrint (MReceivedSignal sg)]).

(** *** The loop *)

(** [max_duration and elapsed >= max_duration] *)
Definition deadline_reached (a : Args) (elapsed : Q) : bool :=
  negb (max_duration a =? 0) && Qle_bool (inject_Z (max_duration a)) elapsed.

(** [args.max_restarts and restarts >= args.max_restarts] *)
Definition budget_exhausted (a : Args) (n : Z) : bool :=
  negb (max_restarts a =? 0) && (max_restarts a <=? n).

(** Python's [int(x)] on a float: truncation towards zero. *)
Definition int_of (x : Q) : Z := Z.quot (Qnum x) (Zpos (Qden x)).

Definition clean_exit_note (rc : option Z) : list event :=
  match rc with
  | Some 0 => [EPrint MCleanExitNote]
  | _ => []
  end.

Definition step (a : Args) (ss : session) (s : state) (e : oracle)
  : option (state * list event) :=
  match pc s with
  | AtLoopHead =>
      (* while not stop: *)
      if stop s then Some (goto s AtEnd, []) else Some (goto s AtGuard, [])
  | AtGuard =>
      (* duration guard before the launch *)
      let now := o_clock e in
      let elapsed := (now - session_start ss)%Q in
      if deadline_reached a elapsed then
        Some (goto s AtEnd,
              [EMonotonic now;
               EPrint (MMaxDurationNotLaunching elapsed (max_duration a));
               EWrite (LMaxDurationBeforeLaunch elapsed)])
      else Some (goto s AtLaunch, [EMonotonic now])
  | AtLaunch =>
      let pre := [EWrite (LLaunching (restarts s));
                  EPrint (MLaunching (restarts s))] in
      match o_popen e with
      | Ok pid => Some (goto s (AtPoll pid), pre ++ [EPopen (Ok pid)])
      | Raise FileNotFoundError =>
          Some (goto s (Halted (SysExit 1)),
                pre ++ [EPopen (Raise FileNotFoundError);
                        EPrint MFfmpegNotFound; ECloseLog])
      | Raise PermissionError =>
          Some (goto s (Halted (SysExit 1)),
                pre ++ [EPopen (Raise PermissionError);
                        EPrint MCannotExecute; ECloseLog])
      | Raise x =>
          Some (goto s (Halted (Uncaught x)),
                pre ++ [EPopen (Raise x); ECloseLog])
      end
  | AtPoll pid =>
      (* while proc.poll() is None and not stop: *)
      match o_poll e with
      | Some rc => Some (goto s (AtStopCheck pid (Some rc)), [EPoll (Some rc)])
      | None =>
          if stop s then Some (goto s (AtStopCheck pid None), [EPoll None])
          else Some (goto s (AtTick pid), [EPoll None])
      end
  | AtTick pid =>
      (* time.sleep(1), then the duration check while ffmpeg runs *)
      let now := o_clock e in
      let elapsed := (now - session_start ss)%Q in
      if deadline_reached a elapsed then
        Some (goto (set_stop s) (AtPoll pid),
              [ESleep 1; EMonotonic now;
               EPrint (MMaxDurationStopping elapsed (max_duration a));
               EWrite (LMaxDurationMidRun elapsed)])
      else Some (goto s (AtPoll pid), [ESleep 1; EMonotonic now])
  | AtStopCheck pid rc =>
      if stop s then
        (* graceful shutdown: no restart *)
        match Terminator._kill_process_group (o_fuel e) (o_kill e) with
        | None => None
        | Some (Ok _, evs) =>
            Some (goto s AtEnd, evs ++ [EWrite LSessionStopped])
        | Some (Raise x, evs) =>
            Some (goto s (Halted (Uncaught x)), evs ++ [ECloseLog])
        end
      else
        (* unexpected exit of ffmpeg, then restart accounting *)
        let exited := [EWrite (LExited rc); EPrint (MExited rc)]
                        ++ clean_exit_note rc in
        let n := restarts s + 1 in
        let s' := {| stop := stop s; restarts := n; pc := pc s |} in
        if budget_exhausted a n then
          Some (goto s' AtEnd,
                exited ++ [EPrint (MMaxRestarts (max_restarts a));
                           EWrite (LMaxRestarts (max_restarts a))])
        else
          Some (goto s' (AtDelay (Z.to_nat (restart_delay a))),
                exited ++ [EPrint (MRestartingIn (restart_delay a))])
  | AtDelay O =>
      (* range(args.restart_delay) is used up *)
      Some (goto s AtLoopHead, [])
  | AtDelay (S k) =>
      if stop s then Some (goto s AtLoopHead, [])
      else Some (goto s (AtDelay k), [ESleep 1])
  | AtEnd =>
      let now := o_clock e in
      Some (goto s (Halted Returned),
            [EWrite LSessionEnded; ECloseLog; EMonotonic now;
             EPrint (MDone (int_of (now - session_start ss)) (restarts s + 1))])
  | Halted _ => None
  end.

(** What happens next is either a signal, delivered between two steps, or
    the next step of the loop.  A halted process takes neither; a signal
    without a handler is not part of the model; a step whose terminator has
    not returned within [o_fuel] has not happened.  [run] passes over such
    inputs. *)
Inductive input : Type :=
  | Signal (sg : signum)
  | Step (e : oracle).

Definition react (a : Args) (ss : session) (s : state) (i : input)
  : option (state * list event) :=
  match i with
  | Signal sg =>
      match pc s with
      | Halted _ => None
      | _ => if installed sg then Some (handle_sig s sg) else None
      end
  | Step e => step a ss s e
  end.

Fixpoint run (a : Args) (ss : session) (s : state) (inputs : list input)
  : state * list event :=
  match inputs with
  | [] => (s, [])
  | i :: rest =>
      match react a ss s i with
      | None => run a ss s rest
      | Some (s', evs) =>
          let (s'', evs') := run a ss s' rest in (s'', evs ++ evs')
      end
  end.

Definition init : state := {| stop := false; restarts := 0; pc := AtLoopHead |}.

Definition main (a : Args) (ss : session) (inputs : list input)
  : state * list event :=
  match validate a with
  | Some msg => (goto init (Halted (SysExit 2)), [EParserError msg])
  | None =>
      match set_up a ss with
      | (evs, Some x) => (goto init (Halted (Uncaught x)), evs)
      | (evs, None) =>
          let (s, tr) := run a ss init inputs in (s, evs ++ tr)
      end
  end.

(** *** Observations on a trace *)

Definition is_popen (ev : event) : bool :=
  match ev with EPopen _ => true | _ => false end.

(** A child was started. *)
Definition is_launch (ev : event) : bool :=
  match ev with EPopen (Ok _) => true | _ => false end.

Definition is_launch_marker (ev : event) : bool :=
  match ev with EWrite (LLaunching _) => true | _ => false end.

Definition is_exit_marker (ev : event) : bool :=
  match ev with EWrite (LExited _) => true | _ => false end.

Definition is_stop_marker (ev : event) : bool :=
  match ev with EWrite LSessionStopped => true | _ => false end.

Definition is_budget_marker (ev : event) : bool :=
  match ev with EWrite (LMaxRestarts _) => true | _ => false end.

Definition launches (evs : list event) : Z :=
  Z.of_nat (List.length (filter is_launch evs)).

(** The content of the log file. *)
Fixpoint log_of (evs : list event) : list log_line :=
  match evs with
  | [] => []
  | EWrite l :: evs' => l :: log_of evs'
  | _ :: evs' => log_of evs'
  end.

(** The launch count of the closing summary line, if it was printed. *)
Fixpoint reported_launches (evs : list event) : option Z :=
  match evs with
  | [] => None
  | EPrint (MDone _ n) :: _ => Some n
  | _ :: evs' => reported_launches evs'
  end.

Definition halted (s : state) : option halt :=
  match pc s with
  | Halted h => Some h
  | _ => None
  end.

(** No launch can follow from [s]: the loop is over, or the flag is set
    and the loop is not between its test of the flag and
    [subprocess.Popen]. *)
Definition settled (s : state) : bool :=
  match pc s with
  | AtEnd | Halted _ => true
  | AtGuard | AtLaunch => false
  | _ => stop s
  end.

(** The events that follow the first clock reading at which the configured
    maximum duration has elapsed. *)
Fixpoint after_deadline (a : Args) (ss : session) (evs : list event)
  : option (list event) :=
  match evs with
  | [] => None
  | EMonotonic t :: evs' =>
      if deadline_reached a (t - session_start ss)%Q then Some evs'
      else after_deadline a ss evs'
  | _ :: evs' => after_deadline a ss evs'
  end.

(** The loop is over. *)
Definition finished (s : state) : bool :=
  match pc s with
  | AtEnd | Halted _ => true
  | _ => false
  end.

Definition count_events (p : event -> bool) (evs : list event) : Z :=
  Z.of_nat (List.length (filter p evs)).

(** Children started and launch markers written, against the counter:
    they agree before a launch, both are one ahead while a child is being
    watched, and the marker alone is one ahead after a failed launch. *)
Definition launch_counts (s : state) (tr : list event) : Prop :=
  match pc s with
  | AtLoopHead | AtGuard | AtLaunch | AtDelay _ =>
      launches tr = restarts s /\
      count_events is_launch_marker tr = restarts s
  | AtPoll _ | AtTick _ | AtStopCheck _ _ =>
      launches tr = restarts s + 1 /\
      count_events is_launch_marker tr = restarts s + 1
  | Halted (SysExit _) =>
      launches tr = restarts s /\
      count_events is_launch_marker tr = restarts s + 1
  | _ => True
  end.

(** The log of a session in which nothing has been launched yet. *)
Definition log_before_first_launch (ss : session) (s : state)
  (tr : list event) : Prop :=
  0 <= restarts s /\
  match pc s with
  | AtLoopHead | AtGuard | AtLaunch =>
      restarts s = 0 -> log_of tr = [LSessionStarted; LCmd (cmd ss)]
  | Halted (SysExit _) =>
      restarts s = 0 ->
      log_of tr = [LSessionStarted; LCmd (cmd ss); LLaunching 0]
  | AtDelay _ => 1 <= restarts s
  | _ => True
  end.

(** Children started against the counter and the "session stopped" line:
    only a session that ends on the stop path has started one child more
    than the counter says. *)
Definition stop_counts (s : state) (tr : list event) : Prop :=
  match pc s with
  | AtEnd | Halted Returned =>
      launches tr = restarts s + count_events is_stop_marker tr /\
      0 <= count_events is_stop_marker tr <= 1
  | Halted _ => True
  | AtPoll _ | AtTick _ | AtStopCheck _ _ =>
      launches tr = restarts s + 1 /\ count_events is_stop_marker tr = 0
  | _ =>
      launches tr = restarts s /\ count_events is_stop_marker tr = 0
  end.

(** The summary line is printed by the last step only, with the counter
    plus one. *)
Definition summary_state (s : state) (tr : list event) : Prop :=
  match pc s with
  | Halted Returned => reported_launches tr = Some (restarts s + 1)
  | _ => reported_launches tr = None
  end.

Definition is_parser_error (ev : event) : bool :=
  match ev with EParserError _ => true | _ => false end.

(** Effects the validation must precede. *)
Definition is_effect (ev : event) : bool :=
  match ev with
  | EMakedirs _ | EOpenLog _ | EPopen _ => true
  | _ => false
  end.

Definition notices (sigs : list signum) : list event :=
  map (fun sg => EPrint (MReceivedSignal sg)) sigs.

(** *** Sample sessions *)

(** The defaults of the command line. *)
Definition default_args : Args := {|
  rtsp := "rtsp://192.168.1.10:554/stream1";
  out := "./recordings";
  segment := 600;
  tcp := false;
  restart_delay := 5;
  max_restarts := 0;
  max_duration := 14400;
  log := "./ffmpeg_recorder.log";
  extra_ffmpeg_args := ""
|}.

Definition with_limits (delay limit duration : Z) : Args := {|
  rtsp := rtsp default_args;
  out := out default_args;
  segment := segment default_args;
  tcp := tcp default_args;
  restart_delay := delay;
  max_restarts := limit;
  max_duration := duration;
  log := log default_args;
  extra_ffmpeg_args := extra_ffmpeg_args default_args
|}.

Definition sample_session : session := {|
  abs_log := "/srv/ffmpeg_recorder.log";
  log_dir := "/srv";
  cmd := ["ffmpeg"; "-hide_banner"; "-nostdin"]%string;
  session_start := 100;
  answers := {| makedirs_out := Ok tt; makedirs_log := Ok tt;
                deadline_date := Ok tt; open_log := Ok tt |}
|}.

(** [--log ''] makes [abs_log] the working directory, which [open] refuses
    (IsADirectoryError, an OSError). *)
Definition directory_as_log : session := {|
  abs_log := "/srv";
  log_dir := "/";
  cmd := cmd sample_session;
  session_start := 100;
  answers := {| makedirs_out := Ok tt; makedirs_log := Ok tt;
                deadline_date := Ok tt; open_log := Raise OSError |}
|}.

(** [--segment 100000000000000]: more days than a [timedelta] holds. *)
Definition oversized_segment : Args := {|
  rtsp := rtsp default_args;
  out := out default_args;
  segment := 100000000000000;
  tcp := tcp default_args;
  restart_delay := restart_delay default_args;
  max_restarts := max_restarts default_args;
  max_duration := max_duration default_args;
  log := log default_args;
  extra_ffmpeg_args := extra_ffmpeg_args default_args
|}.

Definition answer (clock : Q) (popen : result Z) (poll : option Z) : oracle := {|
  o_clock := clock;
  o_popen := popen;
  o_poll := poll;
  o_kill := Terminator.stubborn_child;
  o_fuel := 16
|}.

(** ffmpeg starts and runs. *)
Definition running : oracle := answer 101 (Ok 4242) None.
(** ffmpeg starts and is found exited with code 1 at the first poll. *)
Definition failing : oracle := answer 101 (Ok 4242) (Some 1).
(** There is no ffmpeg binary. *)
Definition missing : oracle := answer 101 (Raise FileNotFoundError) None.

(** *** Statements the code does not satisfy *)

(** Once the flag is set, no child is started any more, wherever the loop
    stands. *)
Definition flag_forbids_every_launch (a : Args) (ss : session) : Prop :=
  forall before after,
    stop (fst (run a ss init before)) = true ->
    launches (snd (run a ss (fst (run a ss init before)) after)) = 0.

(** A session that dies of a launch failure has written no launch marker. *)
Definition fatal_exit_leaves_no_launch_marker (a : Args) (ss : session) : Prop :=
  forall inputs,
    halted (fst (main a ss inputs)) = Some (SysExit 1) ->
    filter is_launch_marker (snd (main a ss inputs)) = [].

(** The closing summary reports the number of children started. *)
Definition summary_counts_launches (a : Args) (ss : session) : Prop :=
  forall inputs n,
    reported_launches (snd (main a ss inputs)) = Some n ->
    n = launches (snd (main a ss inputs)).

End Supervisor.

(** ** The ffmpeg command line *)

Module Command.

Import Supervisor.

(** Python strings are read as [string]s over the code points below 256.
    [isspace] is [str.isspace] on that range: tab to carriage return, the
    four separators 0x1c to 0x1f, the space, NEL and the no-break space. *)
Definition isspace (c : ascii) : bool :=
  let n := N_of_ascii c in
  (((9 <=? n) && (n <=? 13)) || ((28 <=? n) && (n <=? 32))
   || (n =? 133) || (n =? 160))%N.

(** [s.lstrip()], [s.rstrip()] and [s.strip()]. *)
Fixpoint lstrip (s : string) : string :=
  match s with
  | EmptyString => EmptyString
  | String c s' => if isspace c then lstrip s' else s
  end.

Fixpoint rstrip (s : string) : string :=
  match s with
  | EmptyString => EmptyString
  | String c s' =>
      match rstrip s' with
      | EmptyString => if isspace c then EmptyString else String c EmptyString
      | r => String c r
      end
  end.

Definition strip (s : string) : string := rstrip (lstrip s).

(** [s.split()]: the maximal runs of characters that are not whitespace.
    [word] is the run being read. *)
Fixpoint split_from (word : string) (s : string) : list string :=
  match s with
  | EmptyString =>
      match word with
      | EmptyString => []
      | _ => [word]
      end
  | String c s' =>
      if isspace c then
        match word with
        | EmptyString => split_from EmptyString s'
        | _ => word :: split_from EmptyString s'
        end
      else split_from (word ++ String c EmptyString) s'
  end.

Definition split (s : string) : list string := split_from EmptyString s.

(** [args.extra_ffmpeg_args.strip().split()
     if args.extra_ffmpeg_args.strip() else []] *)
Definition parse_extra (s : string) : list string :=
  match strip s with
  | EmptyString => []
  | stripped => split stripped
  end.

(** [os.path.join(a, b)] of [posixpath]. *)
Definition startswith_sep (s : string) : bool :=
  match s with
  | String c _ => (c =? "/")%char
  | EmptyString => false
  end.

Fixpoint endswith_sep (s : string) : bool :=
  match s with
  | EmptyString => false
  | String c EmptyString => (c =? "/")%char
  | String _ s' => endswith_sep s'
  end.

Definition path_join (a b : string) : string :=
  if startswith_sep b then b
  else
    match a with
    | EmptyString => b
    | _ => if endswith_sep a then a ++ b else a ++ "/" ++ b
    end.

(** [str(n)] for an [int]. *)
Definition str (n : Z) : string := NilZero.string_of_int (Z.to_int n).

Definition SEGMENT_PATTERN : string := "anpr_%Y-%m-%d_%H-%M-%S.mkv".

Definition build_ffmpeg_cmd (rtsp_url out_dir : string) (segment_seconds : Z)
  (tcp : bool) (extra : list string) : list string :=
  let out_pattern := path_join out_dir SEGMENT_PATTERN in
  let cmd := ["ffmpeg"; "-hide_banner"; "-loglevel"; "info"; "-nostdin"]%string in
  let cmd := if tcp then cmd ++ ["-rtsp_transport"; "tcp"]%string else cmd in
  let cmd := cmd ++ ["-stimeout"; "5000000";
                     "-i"; rtsp_url;
                     "-map"; "0";
                     "-c"; "copy";
                     "-f"; "segment";
                     "-segment_time"; str segment_seconds;
                     "-reset_timestamps"; "1";
                     "-strftime"; "1"]%string in
  let cmd := cmd ++ extra in
  cmd ++ [out_pattern].

(** The command [main] builds once from its arguments. *)
Definition command_of (a : Args) : list string :=
  build_ffmpeg_cmd (rtsp a) (out a) (segment a) (tcp a)
                   (parse_extra (extra_ffmpeg_args a)).

(** The session [main] sets up from its arguments, given what the system
    answers for the absolute log path, the clock and the set-up. *)
Definition session_of (a : Args) (abs_log_path dir : string) (t0 : Q)
  (st : startup) : session :=
  {| abs_log := abs_log_path; log_dir := dir; cmd := command_of a;
     session_start := t0; answers := st |}.

(** A word of a command line: not empty, no whitespace in it. *)
Fixpoint no_space (s : string) : bool :=
  match s with
  | EmptyString => true
  | String c s' => negb (isspace c) && no_space s'
  end.

Definition is_word (s : string) : bool :=
  match s with
  | EmptyString => false
  | _ => no_space s
  end.

Fixpoint all_space (s : string) : bool :=
  match s with
  | EmptyString => true
  | String c s' => isspace c && all_space s'
  end.

(** The decimal numeral [s] read back as an integer. *)
Definition read_decimal (s : string) : option Z :=
  option_map Z.of_int (NilZero.int_of_string s).

(** Where [build_ffmpeg_cmd] puts the value of [-segment_time]. *)
Definition segment_time_index (tcp : bool) : nat :=
  if tcp then 18%nat else 16%nat.

End Command.

(** ** Further observations on a session *)

Module Observations.

Import Supervisor.

(** The log file as the trace uses it: written to (by the script or, through
    the redirected output of a child being started, by ffmpeg) only between
    its opening and its closing. *)
Inductive log_state : Type := NotOpened | Opened | Closed.

Fixpoint log_use (st : log_state) (evs : list event) : option log_state :=
  match evs with
  | [] => Some st
  | EOpenLog _ :: evs' =>
      match st with NotOpened => log_use Opened evs' | _ => None end
  | ECloseLog :: evs' =>
      match st with Opened => log_use Closed evs' | _ => None end
  | EWrite _ :: evs' | EPopen _ :: evs' =>
      match st with Opened => log_use Opened evs' | _ => None end
  | _ :: evs' => log_use st evs'
  end.

(** The indices written in the launch markers, in order. *)
Fixpoint launch_indices (evs : list event) : list Z :=
  match evs with
  | [] => []
  | EWrite (LLaunching i) :: evs' => i :: launch_indices evs'
  | _ :: evs' => launch_indices evs'
  end.

(** [0; 1; ...; n - 1] *)
Fixpoint upto (n : nat) : list Z :=
  match n with
  | O => []
  | S n' => upto n' ++ [Z.of_nat n']
  end.

(** Children one at a time: [alive] says whether a child has been started
    and not yet been polled as exited; starting another one then is an
    overlap. *)
Fixpoint children (alive : bool) (evs : list event) : option bool :=
  match evs with
  | [] => Some alive
  | EPopen (Ok _) :: evs' => if alive then None else children true evs'
  | EPoll (Some _) :: evs' => children false evs'
  | _ :: evs' => children alive evs'
  end.

Definition last_line (tr : list event) : option log_line :=
  last (map Some (log_of tr)) None.

Definition is_session_end (ev : event) : bool :=
  match ev with EWrite LSessionEnded => true | _ => false end.

(** Where the loop may stand while a child is, for all it knows, alive:
    watching it, or past the stop path. *)
Definition may_have_child (s : state) : Prop :=
  match pc s with
  | AtPoll _ | AtTick _ | AtEnd | Halted _ => True
  | AtStopCheck _ None => stop s = true
  | _ => False
  end.

(** The loop is at the stop check without an exit code only when the flag
    is set. *)
Definition stop_check_sound (s : state) : Prop :=
  match pc s with
  | AtStopCheck _ None => stop s = true
  | _ => True
  end.

(** The session-end marker against the way the process ended. *)
Definition end_marker_state (s : state) (tr : list event) : Prop :=
  match pc s with
  | Halted Returned =>
      count_events is_session_end tr = 1 /\
      last_line tr = Some LSessionEnded
  | Halted (SysExit status) =>
      status = 1 /\ count_events is_session_end tr = 0
  | _ => count_events is_session_end tr = 0
  end.

(** The log file was opened. *)
Definition opened (tr : list event) : bool :=
  existsb (fun ev => match ev with EOpenLog _ => true | _ => false end) tr.

(** What a set-up that dies leaves in the trace. *)
Definition startup_only (ev : event) : bool :=
  match ev with
  | EMakedirs _ | EInstallHandler _ | EMonotonic _
  | EPrint MBanner | EPrint (MBannerCut _) => true
  | _ => false
  end.

Definition is_deadline_marker (ev : event) : bool :=
  match ev with
  | EWrite (LMaxDurationBeforeLaunch _) | EWrite (LMaxDurationMidRun _) => true
  | _ => false
  end.

(** How many steps the loop is from its end once the stop flag is set. *)
Definition steps_to_halt (s : state) : nat :=
  match pc s with
  | Halted _ => 0
  | AtEnd => 1
  | AtStopCheck _ _ | AtLoopHead => 2
  | AtPoll _ | AtDelay _ => 3
  | AtTick _ | AtLaunch => 4
  | AtGuard => 5
  end.

(** The terminator of the step's answer returns. *)
Definition terminator_returns (e : oracle) : bool :=
  match Terminator._kill_process_group (o_fuel e) (o_kill e) with
  | Some _ => true
  | None => false
  end.

End Observations.

(** * Properties *)

(** ** The terminator returns in bounded time *)

Module TerminatorFacts.
Import Terminator.

Lemma Qlt_bool_true (x y : Q) : Qlt_bool x y = true <-> (x < y)%Q.
Proof.
  unfold Qlt_bool. rewrite negb_true_iff. split; intros H.
  - apply Qnot_le_lt. intros C. apply Qle_bool_iff in C. congruence.
  - destruct (Qle_bool y x) eqn:E; [|reflexivity].
    apply Qle_bool_iff in E. apply Qlt_not_le in H. contradiction.
Qed.

Lemma Qlt_bool_false (x y : Q) : Qlt_bool x y = false <-> (y <= x)%Q.
Proof.
  unfold Qlt_bool. rewrite negb_false_iff. apply Qle_bool_iff.
Qed.

Lemma ticks_15 : (ticks 15 == GRACE)%Q.
Proof. reflexivity. Qed.

Lemma slept_app (xs ys : list event) :
  (slept (xs ++ ys) == slept xs + slept ys)%Q.
Proof.
  induction xs as [|ev xs IH]; simpl.
  - lra.
  - destruct ev; simpl; lra.
Qed.

Lemma count_app (p : event -> bool) (xs ys : list event) :
  count p (xs ++ ys) = (count p xs + count p ys)%nat.
Proof. unfold count. now rewrite filter_app, length_app. Qed.

Section IdealClock.

Variable te : env.
Hypothesis clock_monotone : forall k, (monotonic te k <= monotonic te (S k))%Q.
Hypothesis sleep_lasts :
  forall k, (monotonic te (S k) + POLL_INTERVAL <= monotonic te (S (S k)))%Q.
Hypothesis sleep_only :
  forall k, (monotonic te (S k) <= monotonic te k + POLL_INTERVAL)%Q.

Lemma reading_lower_bound (k : nat) :
  (monotonic te 0 + ticks k <= monotonic te (S k))%Q.
Proof.
  induction k as [|k IH]; simpl.
  - specialize (clock_monotone 0%nat). lra.
  - specialize (sleep_lasts k). lra.
Qed.

(** The wait loop, entered before its [k]-th test with [n] tests left
    before the grace period must be over. *)
Lemma wait_for_exit_bounded (deadline : Q) :
  (deadline == monotonic te 0 + GRACE)%Q ->
  forall n k,
    (k + n = 15)%nat ->
    (monotonic te (S k) < deadline + POLL_INTERVAL)%Q ->
    exists w evs,
      (forall fuel, (n < fuel)%nat ->
                    wait_for_exit fuel te deadline k = Some (w, evs)) /\
      (forall t, In (EMonotonic t) evs -> (t < deadline + POLL_INTERVAL)%Q) /\
      (count is_poll evs <= n)%nat /\
      (slept evs <= ticks n)%Q /\
      (forall d, In (ESleep d) evs -> d = POLL_INTERVAL) /\
      forallb is_wait evs = true /\
      (w = ChildExited -> exists j, polls te j <> None).
Proof.
  intros Hd n.
  induction n as [|n IH]; intros k Hk Hnow.
  - (* the sixteenth test: the grace period is over *)
    assert (k = 15%nat) by lia. subst k.
    assert (Hexp : Qlt_bool (monotonic te 16) deadline = false).
    { apply Qlt_bool_false. pose proof (reading_lower_bound 15) as L.
      pose proof ticks_15 as T. lra. }
    exists GraceExpired, [EMonotonic (monotonic te 16)].
    repeat split.
    + intros [|fuel] Hf; [lia|]. simpl. now rewrite Hexp.
    + intros t [Ht|[]]. inversion Ht; subst. exact Hnow.
    + unfold count. simpl. lia.
    + simpl. lra.
    + intros d [Hin|[]]. discriminate.
    + discriminate.
  - destruct (Qlt_bool (monotonic te (S k)) deadline) eqn:Hlt.
    + destruct (polls te k) as [rc|] eqn:Hpoll.
      * exists ChildExited, [EMonotonic (monotonic te (S k)); EPoll (Some rc)].
        repeat split.
        -- intros [|fuel] Hf; [lia|]. simpl. now rewrite Hlt, Hpoll.
        -- intros t [Ht|[Ht|[]]]; inversion Ht; subst. exact Hnow.
        -- unfold count. simpl. lia.
        -- simpl. unfold POLL_INTERVAL.
           assert (0 <= ticks n)%Q.
           { clear. induction n; simpl; unfold POLL_INTERVAL; lra. }
           lra.
        -- intros d [Hin|[Hin|[]]]; discriminate.
        -- intros _. exists k. congruence.
      * apply Qlt_bool_true in Hlt.
        destruct (IH (S k)) as (w & evs & Hrun & Hread & Hpolls & Hsl & Hd5 & Hw & Hex).
        { lia. }
        { specialize (sleep_only (S k)). lra. }
        exists w, (EMonotonic (monotonic te (S k)) :: EPoll None
                     :: ESleep POLL_INTERVAL :: evs).
        repeat split.
        -- intros [|fuel] Hf; [lia|]. simpl.
           apply Qlt_bool_true in Hlt. rewrite Hlt, Hpoll.
           rewrite (Hrun fuel) by lia. reflexivity.
        -- intros t [Ht|[Ht|[Ht|Ht]]]; try discriminate.
           ++ inversion Ht; subst. exact Hnow.
           ++ now apply Hread.
        -- unfold count in *. simpl. lia.
        -- simpl. lra.
        -- intros d [Hin|[Hin|[Hin|Hin]]]; try discriminate.
           ++ now inversion Hin.
           ++ now apply Hd5.
        -- simpl. exact Hw.
        -- exact Hex.
    + exists GraceExpired, [EMonotonic (monotonic te (S k))].
      repeat split.
      * intros [|fuel] Hf; [lia|]. simpl. now rewrite Hlt.
      * intros t [Ht|[]]. inversion Ht; subst. exact Hnow.
      * unfold count. simpl. lia.
      * simpl. assert (0 <= ticks n)%Q.
        { clear. induction n; simpl; unfold POLL_INTERVAL; lra. }
        unfold POLL_INTERVAL. lra.
      * intros d [Hin|[]]. discriminate.
      * discriminate.
Qed.

End IdealClock.

Lemma after_sigkill_wait (evs rest : list event) :
  forallb is_wait evs = true ->
  after_sigkill (evs ++ rest) = after_sigkill rest.
Proof.
  induction evs as [|ev evs IH]; simpl; intros H; [reflexivity|].
  apply andb_true_iff in H as [Hev Hevs].
  destruct ev; try discriminate; auto.
Qed.

(** Upper bounds on a steady clock: when every sleep lasts the 0.2 s asked
    for and nothing else takes time, [_kill_process_group] returns whatever
    the child does (sixteen rounds of the wait loop always suffice); every
    clock reading it takes is less than 3 s + 0.2 s after the one taken
    right after SIGTERM; it polls at most 15 times, sleeps 0.2 s between
    polls and 3 s at most in total; nothing is polled, slept or timed after
    SIGKILL; and a child that never exits is sent SIGKILL. *)
Lemma kill_process_group_bounded (te : env) :
  ideal_clock te ->
  exists r evs,
    (forall fuel, (16 <= fuel)%nat ->
                  _kill_process_group fuel te = Some (r, evs)) /\
    (forall t, In (EMonotonic t) evs ->
               (t < monotonic te 0 + GRACE + POLL_INTERVAL)%Q) /\
    (count is_poll evs <= 15)%nat /\
    (forall d, In (ESleep d) evs -> d = POLL_INTERVAL) /\
    (slept evs <= GRACE)%Q /\
    (forall post, after_sigkill evs = Some post -> count is_wait post = 0%nat) /\
    ((forall j, polls te j = None) ->
     forall pgid, getpgid te = Ok pgid -> killpg te SIGTERM = Ok tt ->
                  In (EKillpg pgid SIGKILL (killpg te SIGKILL)) evs).
Proof.
  intros (Hmono & Hmin & Hmax).
  destruct (wait_for_exit_bounded te Hmono Hmin Hmax
              (monotonic te 0 + GRACE)%Q (Qeq_refl _) 15 0 eq_refl)
    as (w & evs & Hrun & Hread & Hpolls & Hsl & Hd5 & Hw & Hex).
  { specialize (Hmax 0%nat). unfold GRACE, POLL_INTERVAL in *. lra. }
  pose proof ticks_15 as T15.
  assert (Hgrace : (0 <= GRACE)%Q) by (unfold GRACE; lra).
  assert (Hpre : forall t, In (EMonotonic t) evs ->
                   (t < monotonic te 0 + GRACE + POLL_INTERVAL)%Q) by exact Hread.
  assert (Ht0 : (monotonic te 0 < monotonic te 0 + GRACE + POLL_INTERVAL)%Q)
    by (unfold GRACE, POLL_INTERVAL; lra).
  unfold _kill_process_group.
  destruct (getpgid te) as [pgid|x] eqn:Hpg.
  2:{ exists (match x with ProcessLookupError => Ok tt | _ => Raise x end),
        [EGetpgid (Raise x)].
      repeat split.
      - intros fuel _. destruct x; reflexivity.
      - intros t [H|[]]; discriminate.
      - unfold count; simpl; lia.
      - intros d [H|[]]; discriminate.
      - simpl. exact Hgrace.
      - simpl. discriminate.
      - intros _ pgid H. discriminate. }
  destruct (killpg te SIGTERM) as [[]|x] eqn:Hterm.
  2:{ exists (match x with ProcessLookupError => Ok tt | _ => Raise x end),
        [EGetpgid (Ok pgid); EKillpg pgid SIGTERM (Raise x)].
      repeat split.
      - intros fuel _. destruct x; reflexivity.
      - intros t [H|[H|[]]]; discriminate.
      - unfold count; simpl; lia.
      - intros d [H|[H|[]]]; discriminate.
      - simpl. exact Hgrace.
      - simpl. discriminate.
      - intros _ pgid' _ H. discriminate. }
  set (pre := [EGetpgid (Ok pgid); EKillpg pgid SIGTERM (Ok tt);
               EWrite (LSentSIGTERM pgid); EMonotonic (monotonic te 0)]).
  assert (Hin_pre : forall tail t, In (EMonotonic t) (pre ++ evs ++ tail) ->
            (forall t', ~ In (EMonotonic t') tail) ->
            (t < monotonic te 0 + GRACE + POLL_INTERVAL)%Q).
  { intros tail t Hin Htail. apply in_app_or in Hin as [Hin|Hin].
    - destruct Hin as [H|[H|[H|[H|[]]]]]; try discriminate.
      inversion H; subst. exact Ht0.
    - apply in_app_or in Hin as [Hin|Hin]; [now apply Hread|].
      now apply Htail in Hin. }
  assert (Hsleep_pre : forall tail d, In (ESleep d) (pre ++ evs ++ tail) ->
            (forall d', ~ In (ESleep d') tail) -> d = POLL_INTERVAL).
  { intros tail d Hin Htail. apply in_app_or in Hin as [Hin|Hin].
    - destruct Hin as [H|[H|[H|[H|[]]]]]; discriminate.
    - apply in_app_or in Hin as [Hin|Hin]; [now apply Hd5|].
      now apply Htail in Hin. }
  assert (Hcount : forall tail, count is_poll tail = 0%nat ->
            (count is_poll (pre ++ evs ++ tail) <= 15)%nat).
  { intros tail Htail. rewrite !count_app, Htail.
    change (count is_poll pre) with 0%nat. lia. }
  assert (Hslept : forall tail, (slept tail == 0)%Q ->
            (slept (pre ++ evs ++ tail) <= GRACE)%Q).
  { intros tail Htail. rewrite !slept_app, Htail.
    change (slept pre) with 0%Q. lra. }
  assert (Hafter : forall tail, after_sigkill (pre ++ evs ++ tail)
                                = after_sigkill tail).
  { intros tail. simpl. now apply after_sigkill_wait. }
  destruct w.
  - (* the child exited during the grace period *)
    exists (Ok tt), (pre ++ evs).
    rewrite <- (app_nil_r evs).
    repeat split.
    + intros fuel Hf. rewrite app_nil_r. rewrite (Hrun fuel) by lia. reflexivity.
    + intros t Hin. apply (Hin_pre [] t Hin). intros t' [].
    + now apply Hcount.
    + intros d Hin. apply (Hsleep_pre [] d Hin). intros d' [].
    + apply Hslept. reflexivity.
    + intros post. rewrite Hafter. discriminate.
    + intros Hnone. destruct (Hex eq_refl) as (j & Hj).
      now rewrite Hnone in Hj.
  - (* the grace period ran out: SIGKILL *)
    destruct (killpg te SIGKILL) as [[]|x] eqn:Hkill.
    + exists (Ok tt), (pre ++ evs ++ [EKillpg pgid SIGKILL (Ok tt);
                                      EWrite (LSentSIGKILL pgid)]).
      repeat split.
      * intros fuel Hf. rewrite (Hrun fuel) by lia. reflexivity.
      * intros t Hin. apply (Hin_pre _ t Hin).
        intros t' [H|[H|[]]]; discriminate.
      * now apply Hcount.
      * intros d Hin. apply (Hsleep_pre _ d Hin).
        intros d' [H|[H|[]]]; discriminate.
      * apply Hslept. reflexivity.
      * intros post. rewrite Hafter. simpl. intros H. now inversion H.
      * intros _ pgid' Hp _. inversion Hp; subst.
        apply in_or_app. right. apply in_or_app. right. now left.
    + exists (match x with ProcessLookupError => Ok tt | _ => Raise x end),
        (pre ++ evs ++ [EKillpg pgid SIGKILL (Raise x)]).
      repeat split.
      * intros fuel Hf. rewrite (Hrun fuel) by lia. destruct x; reflexivity.
      * intros t Hin. apply (Hin_pre _ t Hin).
        intros t' [H|[]]; discriminate.
      * now apply Hcount.
      * intros d Hin. apply (Hsleep_pre _ d Hin).
        intros d' [H|[]]; discriminate.
      * apply Hslept. reflexivity.
      * intros post. rewrite Hafter. simpl. intros H. now inversion H.
      * intros _ pgid' Hp _. inversion Hp; subst.
        apply in_or_app. right. apply in_or_app. right. now left.
Qed.

Lemma ideal_clock_from_100 (te : env) :
  (forall k, monotonic te k = (100 + ticks (pred k))%Q) -> ideal_clock te.
Proof.
  intros E. unfold ideal_clock.
  repeat split; intros k; rewrite !E; simpl.
  - destruct k as [|k]; simpl; unfold POLL_INTERVAL; lra.
  - lra.
  - destruct k as [|k]; simpl; unfold POLL_INTERVAL; lra.
Qed.

(** ** The terminator swallows every "process already gone" *)

Lemma wait_for_exit_events (fuel : nat) (te : env) (deadline : Q) :
  forall k w evs,
    wait_for_exit fuel te deadline k = Some (w, evs) ->
    forallb is_wait evs = true.
Proof.
  induction fuel as [|fuel IH]; simpl; intros k w evs H; [discriminate|].
  destruct (Qlt_bool _ _).
  - destruct (polls te k).
    + inversion H; subst. reflexivity.
    + destruct (wait_for_exit fuel te deadline (S k)) as [[w' evs']|] eqn:E;
        [|discriminate].
      inversion H; subst. simpl. eauto.
  - inversion H; subst. reflexivity.
Qed.

Lemma forallb_weaken (p q : event -> bool) (evs : list event) :
  (forall ev, p ev = true -> q ev = true) ->
  forallb p evs = true -> forallb q evs = true.
Proof.
  intros Hpq. induction evs as [|ev evs IH]; simpl; [reflexivity|].
  rewrite !andb_true_iff. intros [H1 H2]. auto.
Qed.

Lemma kill_process_group_events (fuel : nat) (te : env) r evs :
  _kill_process_group fuel te = Some (r, evs) ->
  forallb is_terminator_event evs = true.
Proof.
  unfold _kill_process_group. intros H.
  destruct (getpgid te) as [pgid|x].
  2:{ destruct x; inversion H; subst; reflexivity. }
  destruct (killpg te SIGTERM) as [[]|x].
  2:{ destruct x; inversion H; subst; reflexivity. }
  destruct (wait_for_exit fuel te _ 0) as [[w wevs]|] eqn:E; [|discriminate].
  apply wait_for_exit_events in E.
  apply (forallb_weaken is_wait is_terminator_event) in E.
  2:{ intros [] Hev; try discriminate; reflexivity. }
  destruct w.
  - inversion H; subst. simpl. exact E.
  - destruct (killpg te SIGKILL) as [[]|x]; [|destruct x];
      inversion H; subst; simpl; rewrite forallb_app, E; reflexivity.
Qed.

(** C6.  When [os.getpgid] finds the process gone, the terminator returns
    normally at once, having done nothing else (no signal is sent, nothing
    is logged or waited for); when either [os.killpg] finds it
    gone, it returns normally as well (after the SIGTERM attempt, at once);
    and whenever it does raise, the exception is not "process gone" but what
    one of its three system calls raised. *)
Theorem kill_process_group_tolerates_races (fuel : nat) (te : env) :
  (getpgid te = Raise ProcessLookupError ->
   _kill_process_group fuel te =
     Some (Ok tt, [EGetpgid (Raise ProcessLookupError)])) /\
  (forall pgid, getpgid te = Ok pgid ->
     killpg te SIGTERM = Raise ProcessLookupError ->
     _kill_process_group fuel te =
       Some (Ok tt, [EGetpgid (Ok pgid);
                     EKillpg pgid SIGTERM (Raise ProcessLookupError)])) /\
  (forall r evs, _kill_process_group fuel te = Some (r, evs) ->
     killpg te SIGKILL = Raise ProcessLookupError ->
     (exists pgid, getpgid te = Ok pgid) -> killpg te SIGTERM = Ok tt ->
     r = Ok tt) /\
  (forall x evs, _kill_process_group fuel te = Some (Raise x, evs) ->
     x <> ProcessLookupError /\
     (getpgid te = Raise x \/ killpg te SIGTERM = Raise x
      \/ killpg te SIGKILL = Raise x)).
Proof.
  unfold _kill_process_group.
  repeat split.
  - intros ->. reflexivity.
  - intros pgid -> ->. reflexivity.
  - intros r evs H Hkill (pgid & Hpg) Hterm.
    rewrite Hpg, Hterm, Hkill in H.
    destruct (wait_for_exit fuel te _ 0) as [[[] wevs]|];
      now inversion H.
  - destruct (getpgid te) as [pgid|y].
    2:{ destruct y; inversion H; subst; discriminate. }
    destruct (killpg te SIGTERM) as [[]|y].
    2:{ destruct y; inversion H; subst; discriminate. }
    destruct (wait_for_exit fuel te _ 0) as [[[] wevs]|]; try discriminate.
    destruct (killpg te SIGKILL) as [[]|y]; [discriminate|].
    destruct y; inversion H; subst; discriminate.
  - destruct (getpgid te) as [pgid|y].
    2:{ destruct y; inversion H; subst; auto. }
    destruct (killpg te SIGTERM) as [[]|y].
    2:{ destruct y; inversion H; subst; auto. }
    destruct (wait_for_exit fuel te _ 0) as [[[] wevs]|]; try discriminate.
    destruct (killpg te SIGKILL) as [[]|y]; [discriminate|].
    destruct y; inversion H; subst; auto.
Qed.

Lemma kill_process_group_tolerates_races_witness :
  _kill_process_group 16 vanished_child =
    Some (Ok tt, [EGetpgid (Raise ProcessLookupError)]) /\
  (forall r evs, _kill_process_group 16 vanishing_child = Some (r, evs) ->
                 r = Ok tt).
Proof.
  split.
  - exact (proj1 (kill_process_group_tolerates_races 16 vanished_child)
                 eq_refl).
  - intros r evs H.
    exact (proj1 (proj2 (proj2
             (kill_process_group_tolerates_races 16 vanishing_child)))
             r evs H eq_refl (ex_intro _ 4242 eq_refl) eq_refl).
Defined.

(** ** What the wait does, and how long it takes *)

(** What the wait loop has seen when it ends, on any clock. *)
Lemma wait_for_exit_outcome (fuel : nat) (te : env) (deadline : Q) :
  forall k w evs,
    wait_for_exit fuel te deadline k = Some (w, evs) ->
    match w with
    | GraceExpired =>
        (exists t, In (EMonotonic t) evs /\ (deadline <= t)%Q) /\
        (forall rc, ~ In (EPoll (Some rc)) evs)
    | ChildExited =>
        (exists rc, In (EPoll (Some rc)) evs) /\
        (forall t, In (EMonotonic t) evs -> (t < deadline)%Q)
    end.
Proof.
  induction fuel as [|fuel IH]; simpl; intros k w evs H; [discriminate|].
  destruct (Qlt_bool (monotonic te (S k)) deadline) eqn:Hlt.
  - apply Qlt_bool_true in Hlt.
    destruct (polls te k) as [rc|].
    + inversion H; subst. split.
      * exists rc. simpl. auto.
      * intros t [Ht|[Ht|[]]]; inversion Ht; subst. exact Hlt.
    + destruct (wait_for_exit fuel te deadline (S k)) as [[w' evs']|] eqn:E;
        [|discriminate].
      inversion H; subst. specialize (IH _ _ _ E).
      destruct w.
      * destruct IH as [(rc & Hrc) Hread]. split.
        -- exists rc. simpl. auto.
        -- intros t [Ht|[Ht|[Ht|Ht]]]; try discriminate; auto.
           inversion Ht; subst. exact Hlt.
      * destruct IH as [(t & Ht & Hle) Hnone]. split.
        -- exists t. simpl. auto.
        -- intros rc [Hin|[Hin|[Hin|Hin]]]; try discriminate.
           now apply Hnone in Hin.
  - apply Qlt_bool_false in Hlt. inversion H; subst. split.
    + exists (monotonic te (S k)). simpl. auto.
    + intros rc [Hin|[]]. discriminate.
Qed.

(** Every round whose reading is before the deadline polls the child, and
    every poll that finds it running is followed by one sleep of 0.2 s. *)
Lemma wait_for_exit_counts (fuel : nat) (te : env) (deadline : Q) :
  forall k w evs,
    wait_for_exit fuel te deadline k = Some (w, evs) ->
    count (is_reading_before deadline) evs = count is_poll evs /\
    count is_sleep evs = count is_poll_none evs /\
    (forall d, In (ESleep d) evs -> d = POLL_INTERVAL).
Proof.
  induction fuel as [|fuel IH]; simpl; intros k w evs H; [discriminate|].
  destruct (Qlt_bool (monotonic te (S k)) deadline) eqn:Hlt.
  - destruct (polls te k) as [rc|].
    + inversion H; subst. unfold count. simpl. rewrite Hlt. simpl.
      repeat split. intros d [Hin|[Hin|[]]]; discriminate.
    + destruct (wait_for_exit fuel te deadline (S k)) as [[w' evs']|] eqn:E;
        [|discriminate].
      inversion H; subst. destruct (IH _ _ _ E) as (H1 & H2 & H3).
      unfold count in *. simpl. rewrite Hlt. simpl. repeat split; try lia.
      intros d [Hin|[Hin|[Hin|Hin]]]; try discriminate.
      * now inversion Hin.
      * now apply H3.
  - inversion H; subst. unfold count. simpl. rewrite Hlt. simpl.
    repeat split. intros d [Hin|[]]. discriminate.
Qed.

(** When a round never lasts longer than [delta], the loop is left at most
    [delta] after the deadline. *)
Lemma wait_for_exit_gap (te : env) (deadline delta : Q) :
  (forall k, monotonic te (S k) <= monotonic te k + delta)%Q ->
  forall fuel k w evs,
    (monotonic te (S k) < deadline + delta)%Q ->
    wait_for_exit fuel te deadline k = Some (w, evs) ->
    forall t, In (EMonotonic t) evs -> (t < deadline + delta)%Q.
Proof.
  intros Hgap. induction fuel as [|fuel IH]; simpl; intros k w evs Hk H;
    [discriminate|].
  destruct (Qlt_bool (monotonic te (S k)) deadline) eqn:Hlt.
  - apply Qlt_bool_true in Hlt.
    destruct (polls te k) as [rc|].
    + inversion H; subst. intros t [Ht|[Ht|[]]]; inversion Ht; subst.
      exact Hk.
    + destruct (wait_for_exit fuel te deadline (S k)) as [[w' evs']|] eqn:E;
        [|discriminate].
      inversion H; subst.
      intros t [Ht|[Ht|[Ht|Ht]]]; try discriminate.
      * inversion Ht; subst. exact Hk.
      * apply (IH (S k) w evs'); [|exact E|exact Ht].
        specialize (Hgap (S k)). lra.
  - inversion H; subst. intros t [Ht|[]]. inversion Ht; subst. exact Hk.
Qed.

(** A wait that ends because the grace period ran out has polled once per
    round and slept 0.2 s after each poll, up to the first reading at or
    after the deadline. *)
Lemma wait_for_exit_rounds (fuel : nat) (te : env) (deadline : Q) :
  forall k evs,
    wait_for_exit fuel te deadline k = Some (GraceExpired, evs) ->
    exists n, count is_poll evs = n /\
              (deadline <= monotonic te (S (k + n)))%Q /\
              (slept evs == ticks n)%Q.
Proof.
  induction fuel as [|fuel IH]; simpl; intros k evs H; [discriminate|].
  destruct (Qlt_bool (monotonic te (S k)) deadline) eqn:Hlt.
  - destruct (polls te k) as [rc|]; [discriminate|].
    destruct (wait_for_exit fuel te deadline (S k)) as [[w' evs']|] eqn:E;
      [|discriminate].
    inversion H; subst. destruct (IH _ _ E) as (n & Hn & Hle & Hsl).
    exists (S n). split; [|split].
    + unfold count in *. simpl. now rewrite Hn.
    + now rewrite Nat.add_succ_r.
    + simpl. lra.
  - apply Qlt_bool_false in Hlt. inversion H; subst.
    exists 0%nat. rewrite Nat.add_0_r.
    split; [reflexivity|]. split; [exact Hlt|]. simpl. lra.
Qed.

Lemma wait_for_exit_exited (fuel : nat) (te : env) (deadline : Q) :
  forall k evs,
    wait_for_exit fuel te deadline k = Some (ChildExited, evs) ->
    exists j, polls te j <> None.
Proof.
  induction fuel as [|fuel IH]; simpl; intros k evs H; [discriminate|].
  destruct (Qlt_bool (monotonic te (S k)) deadline); [|discriminate].
  destruct (polls te k) as [rc|] eqn:Hp.
  - exists k. congruence.
  - destruct (wait_for_exit fuel te deadline (S k)) as [[w' evs']|] eqn:E;
      [|discriminate].
    inversion H; subst. eauto.
Qed.

Lemma reading_upper_bound (te : env) :
  (forall k, monotonic te (S k) <= monotonic te k + POLL_INTERVAL)%Q ->
  forall n, (monotonic te n <= monotonic te 0 + ticks n)%Q.
Proof.
  intros Hmax. induction n as [|n IH]; simpl; [lra|].
  specialize (Hmax n). lra.
Qed.

Lemma ticks_le (n m : nat) : (n <= m)%nat -> (ticks n <= ticks m)%Q.
Proof.
  induction 1 as [|m _ IH]; [lra|]. simpl. unfold POLL_INTERVAL. lra.
Qed.

(** The events of a run that got past SIGTERM: the four of the prologue,
    those of the wait, and the SIGKILL attempt if the grace period ran
    out. *)
Lemma kill_process_group_shape (fuel : nat) (te : env) r evs pgid :
  _kill_process_group fuel te = Some (r, evs) ->
  getpgid te = Ok pgid -> killpg te SIGTERM = Ok tt ->
  exists w wevs,
    wait_for_exit fuel te (monotonic te 0 + GRACE)%Q 0 = Some (w, wevs) /\
    evs = [EGetpgid (Ok pgid); EKillpg pgid SIGTERM (Ok tt);
           EWrite (LSentSIGTERM pgid); EMonotonic (monotonic te 0)]
          ++ wevs
          ++ match w with
             | ChildExited => []
             | GraceExpired =>
                 EKillpg pgid SIGKILL (killpg te SIGKILL)
                 :: match killpg te SIGKILL with
                    | Ok _ => [EWrite (LSentSIGKILL pgid)]
                    | Raise _ => []
                    end
             end.
Proof.
  unfold _kill_process_group. intros H Hpg Hterm. rewrite Hpg, Hterm in H.
  destruct (wait_for_exit fuel te _ 0) as [[w wevs]|]; [|discriminate].
  exists w, wevs. split; [reflexivity|].
  destruct w.
  - inversion H; subst. now rewrite app_nil_r.
  - destruct (killpg te SIGKILL) as [[]|x]; [|destruct x];
      inversion H; subst; reflexivity.
Qed.

(** C5.  What [_kill_process_group] does between SIGTERM and its return.
    On any clock, once SIGTERM is delivered: every round of the wait whose
    clock reading is before the deadline (the first reading plus 3 s) polls
    the child, every poll that finds it running is followed by one sleep of
    0.2 s, SIGKILL is attempted exactly when no poll found the child exited,
    and then only after a reading at or past the deadline, and nothing is
    polled, slept or timed after it.  When consecutive readings are never
    more than [delta] apart, every reading is less than 3 s + [delta] after
    the first.  On a steady clock (each round lasts the 0.2 s of its sleep)
    the terminator returns whatever the child does, within 3 s + 0.2 s,
    after at most 15 polls and 3 s of sleep; and a child that never exits
    is polled at least 14 times and waited for at least 2.8 s before it is
    sent SIGKILL. *)
Theorem kill_process_group_waits (te : env) :
  (forall fuel r evs pgid,
     _kill_process_group fuel te = Some (r, evs) ->
     getpgid te = Ok pgid -> killpg te SIGTERM = Ok tt ->
     count (is_reading_before (monotonic te 0 + GRACE)) evs
       = S (count is_poll evs) /\
     count is_sleep evs = count is_poll_none evs /\
     (forall d, In (ESleep d) evs -> d = POLL_INTERVAL) /\
     (after_sigkill evs <> None <->
      forall rc, ~ In (EPoll (Some rc)) evs) /\
     (after_sigkill evs <> None ->
      exists t, In (EMonotonic t) evs /\ (monotonic te 0 + GRACE <= t)%Q) /\
     (forall post, after_sigkill evs = Some post ->
                   count is_wait post = 0%nat)) /\
  (forall delta,
     (0 <= delta)%Q ->
     (forall k, monotonic te (S k) <= monotonic te k + delta)%Q ->
     forall fuel r evs,
       _kill_process_group fuel te = Some (r, evs) ->
       forall t, In (EMonotonic t) evs ->
                 (t < monotonic te 0 + GRACE + delta)%Q) /\
  (ideal_clock te ->
   exists r evs,
     (forall fuel, (16 <= fuel)%nat ->
                   _kill_process_group fuel te = Some (r, evs)) /\
     (forall t, In (EMonotonic t) evs ->
                (t < monotonic te 0 + GRACE + POLL_INTERVAL)%Q) /\
     (count is_poll evs <= 15)%nat /\
     (slept evs <= GRACE)%Q /\
     ((forall j, polls te j = None) ->
      forall pgid, getpgid te = Ok pgid -> killpg te SIGTERM = Ok tt ->
        In (EKillpg pgid SIGKILL (killpg te SIGKILL)) evs /\
        (14 <= count is_poll evs)%nat /\
        (GRACE - POLL_INTERVAL <= slept evs)%Q)).
Proof.
  assert (Ht0 : Qlt_bool (monotonic te 0) (monotonic te 0 + GRACE) = true).
  { apply Qlt_bool_true. unfold GRACE. lra. }
  split; [|split].
  - (* what the wait does *)
    intros fuel r evs pgid H Hpg Hterm.
    destruct (kill_process_group_shape _ _ _ _ _ H Hpg Hterm)
      as (w & wevs & E & ->).
    destruct (wait_for_exit_counts _ _ _ _ _ _ E) as (C1 & C2 & C3).
    pose proof (wait_for_exit_events _ _ _ _ _ _ E) as Hw.
    pose proof (wait_for_exit_outcome _ _ _ _ _ _ E) as Hout.
    set (tail := match w with
                 | ChildExited => []
                 | GraceExpired =>
                     EKillpg pgid SIGKILL (killpg te SIGKILL)
                     :: match killpg te SIGKILL with
                        | Ok _ => [EWrite (LSentSIGKILL pgid)]
                        | Raise _ => []
                        end
                 end).
    assert (Htail : forall ev, In ev tail -> is_wait ev = false).
    { subst tail. destruct w; [intros ev []|].
      destruct (killpg te SIGKILL); intros ev Hin;
        repeat (destruct Hin as [<-|Hin]; [reflexivity|]); destruct Hin. }
    assert (Hc : forall p, (forall ev, p ev = true -> is_wait ev = true) ->
                           count p tail = 0%nat).
    { intros p Hp. unfold count.
      assert (Hnil : filter p tail = []); [|now rewrite Hnil].
      clear -Htail Hp. induction tail as [|ev tl IH]; simpl; [reflexivity|].
      destruct (p ev) eqn:Hev.
      - apply Hp in Hev. rewrite Htail in Hev by now left. discriminate.
      - apply IH. intros ev' Hin. apply Htail. now right. }
    rewrite !count_app.
    rewrite (Hc (is_reading_before _)), (Hc is_poll), (Hc is_sleep),
      (Hc is_poll_none); try (intros [] Hev; try discriminate; reflexivity).
    unfold count at 1 3 5 7. cbn [filter is_reading_before is_poll is_sleep
                                   is_poll_none List.length].
    rewrite Ht0. cbn [List.length].
    assert (Hafter : after_sigkill
                       ([EGetpgid (Ok pgid); EKillpg pgid SIGTERM (Ok tt);
                         EWrite (LSentSIGTERM pgid);
                         EMonotonic (monotonic te 0)] ++ wevs ++ tail)
                     = after_sigkill tail).
    { simpl. now apply after_sigkill_wait. }
    rewrite Hafter.
    assert (Hin : forall ev, is_wait ev = true ->
                    In ev ([EGetpgid (Ok pgid); EKillpg pgid SIGTERM (Ok tt);
                            EWrite (LSentSIGTERM pgid);
                            EMonotonic (monotonic te 0)] ++ wevs ++ tail) ->
                    ev = EMonotonic (monotonic te 0) \/ In ev wevs).
    { intros ev Hev Hi. apply in_app_or in Hi as [Hi|Hi].
      - destruct Hi as [<-|[<-|[<-|[<-|[]]]]]; try discriminate. now left.
      - apply in_app_or in Hi as [Hi|Hi]; [now right|].
        apply Htail in Hi. congruence. }
    split; [lia|]. split; [lia|]. split; [|split; [split|split]].
    + intros d Hi. apply Hin in Hi as [Hi|Hi]; [discriminate|auto|reflexivity].
    + intros Hk rc Hi. apply Hin in Hi as [Hi|Hi]; [discriminate| |reflexivity].
      subst tail. destruct w; [now destruct Hk|].
      destruct Hout as [_ Hnone]. now apply Hnone in Hi.
    + intros Hnone. subst tail. destruct w; [|simpl; discriminate].
      destruct Hout as [(rc & Hrc) _]. exfalso. apply (Hnone rc).
      apply in_or_app. right. apply in_or_app. now left.
    + intros Hk. subst tail. destruct w; [now destruct Hk|].
      destruct Hout as [(t & Ht & Hle) _]. exists t. split; [|exact Hle].
      apply in_or_app. right. apply in_or_app. now left.
    + intros post Hp. subst tail. destruct w; [discriminate|].
      simpl in Hp. inversion Hp; subst.
      destruct (killpg te SIGKILL); reflexivity.
  - (* rounds of at most delta *)
    intros delta Hd Hgap fuel r evs H t Hin.
    destruct (getpgid te) as [pgid|x] eqn:Hpg.
    2:{ unfold _kill_process_group in H. rewrite Hpg in H.
        destruct x; inversion H; subst; destruct Hin as [Hin|[]];
          discriminate. }
    destruct (killpg te SIGTERM) as [[]|x] eqn:Hterm.
    2:{ unfold _kill_process_group in H. rewrite Hpg, Hterm in H.
        destruct x; inversion H; subst; destruct Hin as [Hin|[Hin|[]]];
          discriminate. }
    destruct (kill_process_group_shape _ _ _ _ _ H Hpg Hterm)
      as (w & wevs & E & ->).
    apply in_app_or in Hin as [Hin|Hin].
    { destruct Hin as [Hin|[Hin|[Hin|[Hin|[]]]]]; try discriminate.
      inversion Hin; subst. unfold GRACE. lra. }
    apply in_app_or in Hin as [Hin|Hin].
    { apply (wait_for_exit_gap te _ delta Hgap fuel 0 w wevs); auto.
      specialize (Hgap 0%nat). unfold GRACE. lra. }
    destruct w; [destruct Hin|].
    destruct Hin as [Hin|Hin]; [discriminate|].
    destruct (killpg te SIGKILL); [destruct Hin as [Hin|[]]|destruct Hin];
      discriminate.
  - (* a steady clock *)
    intros Hideal.
    destruct (kill_process_group_bounded te Hideal)
      as (r & evs & Hrun & Hread & Hpolls & _ & Hsl & _ & Hkill).
    exists r, evs.
    split; [exact Hrun|]. split; [exact Hread|]. split; [exact Hpolls|].
    split; [exact Hsl|].
    intros H pgid H0 H1. split; [now apply Hkill|]. split.
    + destruct (kill_process_group_shape _ _ _ _ _ (Hrun 16%nat (le_n _)) H0 H1)
        as (w & wevs & E & ->).
      destruct w.
      { apply wait_for_exit_exited in E as (j & Hj). now rewrite H in Hj. }
      apply wait_for_exit_rounds in E as (n & Hn & Hle & _).
      rewrite !count_app, Hn. cbn [Nat.add] in Hle.
      destruct Hideal as (_ & _ & Hmax).
      pose proof (reading_upper_bound te Hmax (S n)) as Hup.
      destruct (le_lt_dec 14 n) as [Hge|Hlt]; [lia|exfalso].
      pose proof (ticks_le (S n) 14 ltac:(lia)) as Ht.
      assert (ticks 14 < GRACE)%Q by (vm_compute; reflexivity).
      lra.
    + destruct (kill_process_group_shape _ _ _ _ _ (Hrun 16%nat (le_n _)) H0 H1)
        as (w & wevs & E & ->).
      destruct w.
      { apply wait_for_exit_exited in E as (j & Hj). now rewrite H in Hj. }
      apply wait_for_exit_rounds in E as (n & Hn & Hle & Hs).
      cbn [Nat.add] in Hle.
      destruct Hideal as (_ & _ & Hmax).
      pose proof (reading_upper_bound te Hmax (S n)) as Hup.
      simpl in Hup.
      rewrite !slept_app, Hs. simpl.
      assert (0 <= slept match killpg te SIGKILL with
                         | Ok _ => [EWrite (LSentSIGKILL pgid)]
                         | Raise _ => []
                         end)%Q by (destruct (killpg te SIGKILL); simpl; lra).
      unfold GRACE, POLL_INTERVAL in *. lra.
Qed.

Lemma kill_process_group_waits_witness :
  exists r evs,
    (forall fuel, (16 <= fuel)%nat ->
                  _kill_process_group fuel stubborn_child = Some (r, evs)) /\
    (forall t, In (EMonotonic t) evs -> (t < 100 + GRACE + POLL_INTERVAL)%Q) /\
    (14 <= count is_poll evs <= 15)%nat /\
    (GRACE - POLL_INTERVAL <= slept evs <= GRACE)%Q /\
    In (EKillpg 4242 SIGKILL (Ok tt)) evs.
Proof.
  destruct (proj2 (proj2 (kill_process_group_waits stubborn_child))
              (ideal_clock_from_100 stubborn_child (fun k => eq_refl)))
    as (r & evs & Hrun & Hread & Hmost & Hsl & Hstub).
  destruct (Hstub (fun j => eq_refl) 4242 eq_refl eq_refl)
    as (Hkill & Hleast & Hwaited).
  exists r, evs. repeat split; auto.
Defined.

(** A round that takes 0.7 s: the last reading is 3.5 s after the first. *)
Lemma slow_rounds_counterexample :
  ~ returns_within_grace_and_interval sluggish_child.
Proof.
  intros H.
  destruct (_kill_process_group 16 sluggish_child) as [[r evs]|] eqn:E;
    [|vm_compute in E; discriminate].
  specialize (H 16%nat r evs E).
  assert (Hall : forallb (fun ev => match ev with
                                    | EMonotonic t =>
                                        Qlt_bool t (monotonic sluggish_child 0
                                                    + GRACE + POLL_INTERVAL)
                                    | _ => true
                                    end) evs = true).
  { apply forallb_forall. intros [] Hin; try reflexivity.
    apply Qlt_bool_true. now apply H. }
  vm_compute in E. inversion E; subst. vm_compute in Hall. discriminate.
Qed.

End TerminatorFacts.

(** ** The supervisor loop *)

Module SupervisorFacts.
Import Supervisor Observations.

(** *** Sample runs *)

Example default_args_valid : validate default_args = None.
Proof. reflexivity. Qed.

(** Two set-ups that die before the log is opened: the banner cannot
    print a segment length of more than 999999999 days, and [open] refuses
    a directory. *)
Example oversized_segment_dies_in_banner :
  validate oversized_segment = None /\
  main oversized_segment sample_session [Step running] =
    (goto init (Halted (Uncaught OverflowError)),
     [EMakedirs "./recordings"; EMakedirs "/srv";
      EInstallHandler SIGINT; EInstallHandler SIGTERM; EMonotonic 100;
      EPrint (MBannerCut 3)]).
Proof. split; reflexivity. Qed.

Example directory_as_log_dies_at_open :
  main default_args directory_as_log [Step running] =
    (goto init (Halted (Uncaught OSError)),
     [EMakedirs "./recordings"; EMakedirs "/";
      EInstallHandler SIGINT; EInstallHandler SIGTERM; EMonotonic 100;
      EPrint MBanner]).
Proof. reflexivity. Qed.

(** Ctrl+C while ffmpeg records, with an ffmpeg that ignores SIGTERM: one
    launch, SIGTERM, SIGKILL after the grace period, a normal end. *)
Example interrupted_session :
  let r := main default_args sample_session
                [Step running; Step running; Step running; Step running;
                 Signal SIGINT;
                 Step running; Step running; Step running; Step running] in
  halted (fst r) = Some Returned /\
  log_of (snd r) =
    [LSessionStarted; LCmd (cmd sample_session); LLaunching 0;
     LSentSIGTERM 4242; LSentSIGKILL 4242; LSessionStopped; LSessionEnded] /\
  launches (snd r) = 1 /\
  reported_launches (snd r) = Some 1.
Proof. vm_compute. repeat split. Qed.

(** One unexpected exit with the default five-second delay, then a second
    launch. *)
Example restarted_session :
  let r := main default_args sample_session
                ([Step running; Step running; Step running; Step failing;
                  Step running]
                 ++ repeat (Step running) 6
                 ++ [Step running; Step running; Step running]) in
  pc (fst r) = AtPoll 4242 /\
  restarts (fst r) = 1 /\
  log_of (snd r) =
    [LSessionStarted; LCmd (cmd sample_session); LLaunching 0;
     LExited (Some 1); LLaunching 1].
Proof. vm_compute. repeat split. Qed.

(** *** Runs *)

Lemma run_app (a : Args) (ss : session) (xs ys : list input) :
  forall s,
    run a ss s (xs ++ ys) =
    (fst (run a ss (fst (run a ss s xs)) ys),
     snd (run a ss s xs) ++ snd (run a ss (fst (run a ss s xs)) ys)).
Proof.
  induction xs as [|i xs IH]; intros s; simpl.
  - now destruct (run a ss s ys).
  - destruct (react a ss s i) as [[s' evs]|]; [|apply IH].
    rewrite IH.
    destruct (run a ss s' xs) as [s1 t1]; simpl.
    destruct (run a ss s1 ys) as [s2 t2]; simpl.
    now rewrite app_assoc.
Qed.

Lemma run_cons (a : Args) (ss : session) (s : state) i rest :
  run a ss s (i :: rest) =
  match react a ss s i with
  | None => run a ss s rest
  | Some (s', evs) =>
      (fst (run a ss s' rest), evs ++ snd (run a ss s' rest))
  end.
Proof.
  simpl. destruct (react a ss s i) as [[s' evs]|]; [|reflexivity].
  now destruct (run a ss s' rest).
Qed.

(** A property of states that every reaction preserves holds after every
    run. *)
Lemma run_invariant (a : Args) (ss : session) (P : state -> Prop) :
  (forall s i s' evs, P s -> react a ss s i = Some (s', evs) -> P s') ->
  forall inputs s, P s -> P (fst (run a ss s inputs)).
Proof.
  intros Hstep inputs.
  induction inputs as [|i rest IH]; intros s Hs; [exact Hs|].
  rewrite run_cons.
  destruct (react a ss s i) as [[s' evs]|] eqn:E; simpl; eauto.
Qed.

Lemma filter_none (p q : event -> bool) (evs : list event) :
  (forall ev, p ev = true -> q ev = false) ->
  forallb p evs = true -> filter q evs = [].
Proof.
  intros Hpq. induction evs as [|ev evs IH]; simpl; [reflexivity|].
  rewrite andb_true_iff. intros [H1 H2].
  rewrite (Hpq ev H1). auto.
Qed.

(** The terminator writes none of the supervisor's own markers. *)
Lemma terminator_filter (q : event -> bool) fuel te r evs :
  (forall ev, Terminator.is_terminator_event ev = true -> q ev = false) ->
  Terminator._kill_process_group fuel te = Some (r, evs) ->
  filter q evs = [].
Proof.
  intros Hq H. apply TerminatorFacts.kill_process_group_events in H.
  eapply filter_none; eauto.
Qed.

Ltac terminator_event :=
  let ev := fresh "ev" in
  let H := fresh "H" in
  intros ev H; destruct ev as [| | | | |[]| | | | | | |];
  try discriminate H; reflexivity.

(** Case analysis on one reaction of the program. *)
Ltac react_cases H :=
  unfold react, step, handle_sig in H;
  cbn [pc stop restarts goto set_stop] in H;
  repeat match type of H with
         | context [match ?x with _ => _ end] => destruct x eqn:?
         end;
  try discriminate H;
  inversion H; subst; clear H.

(** *** The set-up *)

(** A set-up either goes through, with the events of [setup], or dies
    before the log is opened. *)
Lemma set_up_spec (a : Args) (ss : session) :
  set_up a ss = (setup a ss, None) \/
  exists evs x, set_up a ss = (evs, Some x) /\
                forallb startup_only evs = true.
Proof.
  unfold set_up, ensure_dir_raises, banner_raises, ensure_dir.
  destruct (out a); destruct (log_dir ss);
    destruct (makedirs_out (answers ss)) as [[]|?];
    destruct (makedirs_log (answers ss)) as [[]|?];
    destruct (timedelta_overflows (segment a));
    destruct (max_duration a =? 0);
    destruct (timedelta_overflows (max_duration a));
    destruct (deadline_date (answers ss)) as [[]|?];
    destruct (open_log (answers ss)) as [[]|?];
    first [ left; reflexivity
          | right; eexists; eexists; split; reflexivity ].
Qed.

(** After the two cases of the set-up, the goal is about a set-up that went
    through, or about one that died with [startup_only] events. *)
Ltac set_up_cases a ss evs x Hev :=
  destruct (set_up_spec a ss) as [-> | (evs & x & -> & Hev)];
  cbv beta iota.

Lemma startup_filter (q : event -> bool) (evs : list event) :
  (forall ev, startup_only ev = true -> q ev = false) ->
  forallb startup_only evs = true -> filter q evs = [].
Proof. apply filter_none. Qed.

Ltac startup_event :=
  let ev := fresh "ev" in
  let H := fresh "H" in
  intros ev H; destruct ev as [| | | | |[]|[]| | | | | |];
  try discriminate H; reflexivity.

Lemma startup_log (evs : list event) :
  forallb startup_only evs = true ->
  log_of evs = [] /\ reported_launches evs = None /\
  launches evs = 0 /\ opened evs = false.
Proof.
  induction evs as [|ev evs IH]; simpl; [repeat split|].
  rewrite andb_true_iff. intros [Hev Hevs].
  destruct (IH Hevs) as (I1 & I2 & I3 & I4).
  destruct ev as [| | | | |[]|[]| | | | | |]; try discriminate Hev;
    repeat split; assumption.
Qed.

(** *** The stop flag *)

Lemma react_keeps_stop (a : Args) (ss : session) s i s' evs :
  react a ss s i = Some (s', evs) -> stop s = true -> stop s' = true.
Proof.
  intros H Hs. destruct s as [st rs l]. simpl in Hs. subst st.
  react_cases H; reflexivity.
Qed.

Lemma settled_stays (a : Args) (ss : session) s i s' evs :
  settled s = true ->
  react a ss s i = Some (s', evs) ->
  settled s' = true /\ filter is_popen evs = [].
Proof.
  intros Hs H. destruct s as [st rs l]. unfold settled in *.
  destruct i as [sg|e].
  - react_cases H; simpl in *; auto; try discriminate.
  - destruct l; simpl in Hs; try discriminate; subst;
      try (react_cases H; simpl; auto; fail).
    (* the stop path, through the terminator *)
    unfold react, step in H. simpl in H.
    destruct (Terminator._kill_process_group _ _) as [[[[]|x] tevs]|] eqn:E;
      inversion H; subst; clear H; simpl; split; auto;
      rewrite filter_app;
      rewrite (terminator_filter is_popen _ _ _ _ ltac:(terminator_event) E);
      reflexivity.
Qed.

Lemma settled_run (a : Args) (ss : session) (inputs : list input) :
  forall s,
    settled s = true ->
    settled (fst (run a ss s inputs)) = true /\
    filter is_popen (snd (run a ss s inputs)) = [].
Proof.
  induction inputs as [|i rest IH]; intros s Hs; [now split|].
  rewrite run_cons.
  destruct (react a ss s i) as [[s' evs]|] eqn:E; [|now apply IH].
  destruct (settled_stays _ _ _ _ _ _ Hs E) as [Hs' Hevs].
  destruct (IH s' Hs') as [H1 H2]. simpl.
  now rewrite filter_app, Hevs, H2.
Qed.

Lemma launches_app (xs ys : list event) :
  launches (xs ++ ys) = launches xs + launches ys.
Proof. unfold launches. rewrite filter_app, length_app. lia. Qed.

Lemma no_popen_no_launch (evs : list event) :
  filter is_popen evs = [] -> launches evs = 0.
Proof.
  unfold launches. induction evs as [|ev evs IH]; simpl; [reflexivity|].
  destruct ev; simpl; try exact IH; discriminate.
Qed.

Lemma flagged_react (a : Args) (ss : session) s i s' evs :
  stop s = true ->
  react a ss s i = Some (s', evs) ->
  stop s' = true /\
  ((settled s' = true /\ 0 <= launches evs <= 1)
   \/ (settled s = false /\ launches evs = 0)).
Proof.
  intros Hs H. split; [eapply react_keeps_stop; eauto|].
  destruct (settled s) eqn:Hset.
  - left. destruct (settled_stays _ _ _ _ _ _ Hset H) as [H1 H2].
    split; [exact H1|]. rewrite (no_popen_no_launch _ H2). lia.
  - destruct s as [st rs l]. simpl in Hs. subst st. unfold settled in Hset.
    destruct l; simpl in Hset; try discriminate;
      react_cases H; unfold settled, launches; simpl; auto; left; split; auto; lia.
Qed.

Lemma flagged_run (a : Args) (ss : session) (inputs : list input) :
  forall s, stop s = true -> 0 <= launches (snd (run a ss s inputs)) <= 1.
Proof.
  induction inputs as [|i rest IH]; intros s Hs; [unfold launches; simpl; lia|].
  rewrite run_cons.
  destruct (react a ss s i) as [[s' evs]|] eqn:E; [|now apply IH].
  simpl. rewrite launches_app.
  destruct (flagged_react _ _ _ _ _ _ Hs E) as [Hs' [[Hset Hl]|[_ Hl]]].
  - destruct (settled_run a ss rest s' Hset) as [_ Hp].
    rewrite (no_popen_no_launch _ Hp). lia.
  - specialize (IH s' Hs'). lia.
Qed.

(** C8, as the code has it.  No reaction resets the stop flag, so it stays
    set through every run; from a state in which the flag is set and the
    loop is not between its test of the flag and [subprocess.Popen], no
    child is started any more; from any state in which the flag is set, at
    most one child is started. *)
Theorem stop_flag_invariant (a : Args) (ss : session) :
  (forall s i s' evs, react a ss s i = Some (s', evs) ->
                      stop s = true -> stop s' = true) /\
  (forall s inputs, stop s = true -> stop (fst (run a ss s inputs)) = true) /\
  (forall s inputs, stop s = true -> pc s <> AtGuard -> pc s <> AtLaunch ->
                    launches (snd (run a ss s inputs)) = 0) /\
  (forall s inputs, stop s = true ->
                    launches (snd (run a ss s inputs)) <= 1).
Proof.
  repeat split.
  - intros s i s' evs. apply react_keeps_stop.
  - intros s inputs Hs.
    apply (run_invariant a ss (fun s => stop s = true)); [|exact Hs].
    intros s0 i s' evs H0 H. eapply react_keeps_stop; eauto.
  - intros s inputs Hs Hg Hl.
    apply no_popen_no_launch, settled_run.
    unfold settled. destruct (pc s); auto; congruence.
  - intros s inputs Hs. now apply flagged_run.
Qed.

Lemma stop_flag_invariant_witness :
  stop (fst (run default_args sample_session init
               [Step running; Signal SIGTERM])) = true /\
  launches (snd (run default_args sample_session
                   (fst (run default_args sample_session init
                           [Step running; Signal SIGTERM]))
                   [Step running; Step running; Step running; Step running;
                    Step running; Step running])) <= 1.
Proof.
  split; [reflexivity|].
  apply (proj2 (proj2 (proj2 (stop_flag_invariant default_args sample_session)))).
  reflexivity.
Defined.

(** C8 as the specification states it fails: a signal that arrives after
    the loop has tested the flag does not keep the child from being
    started. *)
Lemma signal_after_flag_test_counterexample :
  ~ flag_forbids_every_launch default_args sample_session.
Proof.
  intros H.
  specialize (H [Step running; Signal SIGTERM] [Step running; Step running]
                eq_refl).
  vm_compute in H. discriminate H.
Qed.

(** *** The deadline *)

Lemma after_deadline_app (a : Args) (ss : session) (xs ys : list event) :
  after_deadline a ss (xs ++ ys) =
  match after_deadline a ss xs with
  | Some post => Some (post ++ ys)
  | None => after_deadline a ss ys
  end.
Proof.
  induction xs as [|ev xs IH]; simpl; [reflexivity|].
  destruct ev; auto.
  destruct (deadline_reached a _); auto.
Qed.

Lemma after_deadline_filter (a : Args) (ss : session) (q : event -> bool) :
  forall evs post,
    after_deadline a ss evs = Some post ->
    filter q evs = [] -> filter q post = [].
Proof.
  induction evs as [|ev evs IH]; simpl; intros post H Hq; [discriminate|].
  destruct (q ev) eqn:Hev; [discriminate|].
  destruct ev; eauto.
  destruct (deadline_reached a _); eauto.
  now inversion H; subst.
Qed.

Lemma react_deadline (a : Args) (ss : session) s i s' evs post :
  react a ss s i = Some (s', evs) ->
  after_deadline a ss evs = Some post ->
  settled s' = true /\ filter is_popen post = [].
Proof.
  intros H Hpost. destruct s as [st rs l].
  destruct i as [sg|e].
  - react_cases H; discriminate.
  - destruct l;
      try (react_cases H; cbn [after_deadline app] in Hpost;
           repeat match type of Hpost with
                  | context [deadline_reached ?x ?y] =>
                      match goal with
                      | E : deadline_reached x y = _ |- _ => rewrite E in Hpost
                      end
                  end;
           repeat match type of Hpost with
                  | context [if ?c then _ else _] => destruct c
                  end;
           try discriminate; inversion Hpost; subst; split; reflexivity).
    (* the stop check *)
    unfold react, step in H. cbn [pc stop restarts goto] in H.
    destruct st.
    + destruct (Terminator._kill_process_group _ _) as [[[[]|x] tevs]|] eqn:E;
        inversion H; subst; clear H; (split; [reflexivity|]);
        apply (after_deadline_filter a ss is_popen _ _ Hpost);
        rewrite filter_app;
        rewrite (terminator_filter is_popen _ _ _ _ ltac:(terminator_event) E);
        reflexivity.
    + destruct (budget_exhausted a (rs + 1)); inversion H; subst; clear H;
        destruct returncode as [[| |]|]; discriminate.
Qed.

Lemma run_deadline (a : Args) (ss : session) (inputs : list input) :
  forall s post,
    after_deadline a ss (snd (run a ss s inputs)) = Some post ->
    filter is_popen post = [].
Proof.
  induction inputs as [|i rest IH]; intros s post; [discriminate|].
  rewrite run_cons.
  destruct (react a ss s i) as [[s' evs]|] eqn:E; [|apply IH].
  simpl. rewrite after_deadline_app.
  destruct (after_deadline a ss evs) as [post'|] eqn:Hd; [|apply IH].
  intros H. inversion H; subst.
  destruct (react_deadline _ _ _ _ _ _ _ E Hd) as [Hset Hp].
  rewrite filter_app, Hp.
  now destruct (settled_run a ss rest s' Hset).
Qed.

Lemma deadline_reached_iff (a : Args) (elapsed : Q) :
  0 < max_duration a ->
  deadline_reached a elapsed = true <->
  (inject_Z (max_duration a) <= elapsed)%Q.
Proof.
  intros HD. unfold deadline_reached.
  replace (max_duration a =? 0) with false by (symmetry; apply Z.eqb_neq; lia).
  simpl. apply Qle_bool_iff.
Qed.

Lemma setup_before_deadline (a : Args) (ss : session) :
  0 < max_duration a -> after_deadline a ss (setup a ss) = None.
Proof.
  intros HD. unfold setup, ensure_dir.
  assert (E : deadline_reached a (session_start ss - session_start ss) = false).
  { destruct (deadline_reached a _) eqn:E; [|reflexivity].
    apply deadline_reached_iff in E; [|exact HD].
    assert (Z0 : (inject_Z (max_duration a) <= 0)%Q) by lra.
    change 0%Q with (inject_Z 0) in Z0. rewrite <- Zle_Qle in Z0. lia. }
  destruct (out a); destruct (log_dir ss); simpl; rewrite E; reflexivity.
Qed.

Lemma set_up_before_deadline (a : Args) (ss : session) :
  0 < max_duration a -> after_deadline a ss (fst (set_up a ss)) = None.
Proof.
  intros HD.
  assert (E : deadline_reached a (session_start ss - session_start ss) = false).
  { destruct (deadline_reached a _) eqn:E; [|reflexivity].
    apply deadline_reached_iff in E; [|exact HD].
    assert (Z0 : (inject_Z (max_duration a) <= 0)%Q) by lra.
    change 0%Q with (inject_Z 0) in Z0. rewrite <- Zle_Qle in Z0. lia. }
  unfold set_up, ensure_dir_raises, banner_raises, setup, ensure_dir.
  destruct (out a); destruct (log_dir ss);
    destruct (makedirs_out (answers ss)) as [[]|?];
    destruct (makedirs_log (answers ss)) as [[]|?];
    destruct (timedelta_overflows (segment a));
    destruct (max_duration a =? 0);
    destruct (timedelta_overflows (max_duration a));
    destruct (deadline_date (answers ss)) as [[]|?];
    destruct (open_log (answers ss)) as [[]|?];
    simpl; rewrite ?E; reflexivity.
Qed.

(** C1.  With a maximum duration D > 0: at the guard before a launch, an
    elapsed time of D or more (by however little) ends the loop without a
    launch and with the deadline entry in the log; at the check made while
    ffmpeg runs, it sets the stop flag; and in every session, and in every
    run from any state, no [subprocess.Popen] follows a clock reading that
    showed D or more elapsed. *)
Theorem deadline_safety (a : Args) (ss : session) :
  0 < max_duration a ->
  (forall s e,
     pc s = AtGuard ->
     (inject_Z (max_duration a) <= o_clock e - session_start ss)%Q ->
     exists evs,
       step a ss s e = Some (goto s AtEnd, evs) /\
       filter is_popen evs = [] /\
       In (EWrite (LMaxDurationBeforeLaunch (o_clock e - session_start ss))) evs) /\
  (forall s e pid,
     pc s = AtTick pid ->
     (inject_Z (max_duration a) <= o_clock e - session_start ss)%Q ->
     exists evs,
       step a ss s e = Some (goto (set_stop s) (AtPoll pid), evs) /\
       stop (goto (set_stop s) (AtPoll pid)) = true /\
       filter is_popen evs = []) /\
  (forall inputs post,
     after_deadline a ss (snd (main a ss inputs)) = Some post ->
     filter is_popen post = []) /\
  (forall s inputs post,
     after_deadline a ss (snd (run a ss s inputs)) = Some post ->
     filter is_popen post = []).
Proof.
  intros HD. repeat split.
  - intros s e Hpc Hover. apply (deadline_reached_iff a _ HD) in Hover.
    unfold step. rewrite Hpc, Hover. eexists. repeat split.
    simpl. auto.
  - intros s e pid Hpc Hover. apply (deadline_reached_iff a _ HD) in Hover.
    unfold step. rewrite Hpc, Hover. eexists. repeat split.
  - intros inputs post. unfold main.
    destruct (validate a); [discriminate|].
    pose proof (set_up_before_deadline a ss HD) as Hb.
    destruct (set_up a ss) as [evs [x|]]; simpl in Hb.
    { simpl. rewrite Hb. discriminate. }
    destruct (run a ss init inputs) as [s tr] eqn:E. simpl.
    rewrite after_deadline_app, Hb.
    intros H. apply (run_deadline a ss inputs init). now rewrite E.
  - intros s inputs post. apply run_deadline.
Qed.

Lemma deadline_safety_witness :
  (exists evs,
     step default_args sample_session (goto init AtGuard)
          (answer (14500 + (1 # 1000)) (Ok 4242) None)
     = Some (goto (goto init AtGuard) AtEnd, evs) /\
     filter is_popen evs = [] /\
     In (EWrite (LMaxDurationBeforeLaunch
                   (o_clock (answer (14500 + (1 # 1000)) (Ok 4242) None)
                    - session_start sample_session))) evs) /\
  (exists post,
     after_deadline default_args sample_session
       (snd (main default_args sample_session
                  [Step running; Step running; Step running; Step running;
                   Step (answer 14501 (Ok 4242) None);
                   Step running; Step running; Step running; Step running]))
     = Some post /\
     filter is_popen post = []).
Proof.
  pose proof (deadline_safety default_args sample_session eq_refl)
    as (Hguard & _ & Hmain & _).
  split.
  - apply Hguard; [reflexivity|]. vm_compute. discriminate.
  - match goal with
    | |- exists post, ?t = Some post /\ _ => destruct t as [post|] eqn:E
    end.
    + exists post. split; [reflexivity|]. exact (Hmain _ _ E).
    + vm_compute in E. discriminate E.
Defined.

(** *** Restart accounting *)

Lemma count_events_app (p : event -> bool) (xs ys : list event) :
  count_events p (xs ++ ys) = count_events p xs + count_events p ys.
Proof. unfold count_events. rewrite filter_app, length_app. lia. Qed.

Lemma count_events_none (p : event -> bool) (evs : list event) :
  filter p evs = [] -> count_events p evs = 0.
Proof. unfold count_events. now intros ->. Qed.

(** The counter moves only where an unexpected exit is handled, and by one;
    each such step writes one "ffmpeg exited" line. *)
Lemma react_counts_exits (a : Args) (ss : session) s i s' evs :
  react a ss s i = Some (s', evs) ->
  restarts s' = restarts s + count_events is_exit_marker evs /\
  (restarts s' = restarts s \/
   restarts s' = restarts s + 1 /\ stop s = false /\
   exists pid rc, pc s = AtStopCheck pid rc).
Proof.
  intros H. destruct s as [st rs l].
  destruct i as [sg|e].
  - react_cases H; simpl; split; auto; unfold count_events; simpl; lia.
  - destruct l;
      try (react_cases H; simpl; split; auto; unfold count_events; simpl; lia).
    unfold react, step in H. cbn [pc stop restarts goto] in H.
    destruct st.
    + destruct (Terminator._kill_process_group _ _) as [[[[]|x] tevs]|] eqn:E;
        inversion H; subst; clear H; simpl; (split; [|auto]);
        rewrite count_events_app, count_events_none;
        try (unfold count_events; simpl; lia);
        apply (terminator_filter is_exit_marker _ _ _ _
                 ltac:(terminator_event) E).
    + destruct (budget_exhausted a (rs + 1)); inversion H; subst; clear H;
        simpl; (split; [|right; eauto]);
        destruct returncode as [[| |]|]; unfold count_events; simpl; lia.
Qed.

Lemma run_counts_exits (a : Args) (ss : session) (inputs : list input) :
  forall s,
    restarts (fst (run a ss s inputs)) =
    restarts s + count_events is_exit_marker (snd (run a ss s inputs)).
Proof.
  induction inputs as [|i rest IH]; intros s.
  - simpl. unfold count_events. simpl. lia.
  - rewrite run_cons.
    destruct (react a ss s i) as [[s' evs]|] eqn:E; [|apply IH].
    simpl. rewrite count_events_app, IH.
    destruct (react_counts_exits _ _ _ _ _ _ E) as [-> _]. lia.
Qed.

Lemma react_budget (a : Args) (ss : session) s i s' evs :
  0 < max_restarts a ->
  restarts s < max_restarts a
  \/ (restarts s = max_restarts a /\ finished s = true) ->
  react a ss s i = Some (s', evs) ->
  restarts s <= restarts s' <= max_restarts a /\
  (restarts s' = max_restarts a -> finished s' = true) /\
  count_events is_budget_marker evs =
    (if (restarts s <? max_restarts a) && (restarts s' =? max_restarts a)
     then 1 else 0).
Proof.
  intros HR Hs H. destruct s as [st rs l]. unfold finished in *.
  cbn [restarts pc] in Hs.
  assert (Hcases : forall n m : Z, n <= max_restarts a -> m = n ->
            (m = max_restarts a -> n < max_restarts a -> False) ->
            0 = if (n <? max_restarts a) && (m =? max_restarts a)
                then 1 else 0).
  { intros n m Hn -> Hm.
    destruct (Z.ltb_spec n (max_restarts a)); simpl; [|reflexivity].
    destruct (Z.eqb_spec n (max_restarts a)); [exfalso; auto|reflexivity]. }
  destruct i as [sg|e].
  - react_cases H; simpl in *; (split; [lia|]);
      (split; [intuition (first [lia | congruence])|]);
      unfold count_events; simpl; apply Hcases;
      intuition (first [lia | congruence]).
  - destruct l;
      try (react_cases H; simpl in *; (split; [lia|]);
           (split; [intuition (first [lia | congruence])|]);
           unfold count_events; simpl; apply Hcases;
           intuition (first [lia | congruence])).
    unfold react, step in H. cbn [pc stop restarts goto] in H.
    assert (Hrs : rs < max_restarts a) by intuition discriminate.
    destruct st.
    + destruct (Terminator._kill_process_group _ _) as [[[[]|x] tevs]|] eqn:E;
        inversion H; subst; clear H; simpl; (split; [lia|]); (split; [auto|]);
        rewrite count_events_app, count_events_none;
        try (unfold count_events; simpl; apply Hcases; lia);
        apply (terminator_filter is_budget_marker _ _ _ _
                 ltac:(terminator_event) E).
    + unfold budget_exhausted in H.
      replace (max_restarts a =? 0) with false in H
        by (symmetry; apply Z.eqb_neq; lia).
      cbn [negb andb] in H.
      destruct (Z.leb_spec (max_restarts a) (rs + 1));
        inversion H; subst; clear H; cbn [restarts pc goto].
      * assert (Heq : rs + 1 = max_restarts a) by lia.
        split; [lia|]. split; [auto|].
        rewrite Heq, Z.eqb_refl.
        replace (rs <? max_restarts a) with true
          by (symmetry; apply Z.ltb_lt; lia).
        destruct returncode as [[| |]|]; reflexivity.
      * split; [lia|]. split; [lia|].
        replace (rs + 1 =? max_restarts a) with false
          by (symmetry; apply Z.eqb_neq; lia).
        rewrite andb_false_r.
        destruct returncode as [[| |]|]; reflexivity.
Qed.

Lemma run_budget (a : Args) (ss : session) (inputs : list input) :
  0 < max_restarts a ->
  forall s,
    restarts s < max_restarts a
    \/ (restarts s = max_restarts a /\ finished s = true) ->
    restarts s <= restarts (fst (run a ss s inputs)) <= max_restarts a /\
    (restarts (fst (run a ss s inputs)) = max_restarts a ->
     finished (fst (run a ss s inputs)) = true) /\
    count_events is_budget_marker (snd (run a ss s inputs)) =
      (if (restarts s <? max_restarts a)
          && (restarts (fst (run a ss s inputs)) =? max_restarts a)
       then 1 else 0).
Proof.
  intros HR. induction inputs as [|i rest IH]; intros s Hs.
  - simpl. split; [lia|]. split; [intuition lia|].
    unfold count_events; simpl.
    destruct (Z.ltb_spec (restarts s) (max_restarts a)); simpl; [|reflexivity].
    destruct (Z.eqb_spec (restarts s) (max_restarts a)); [lia|reflexivity].
  - rewrite run_cons.
    destruct (react a ss s i) as [[s' evs]|] eqn:E; [|now apply IH].
    destruct (react_budget _ _ _ _ _ _ HR Hs E) as (Hle & Hfin & Hcount).
    assert (Hs' : restarts s' < max_restarts a
                  \/ (restarts s' = max_restarts a /\ finished s' = true)).
    { destruct (Z.eq_dec (restarts s') (max_restarts a)); [right|left]; auto.
      lia. }
    destruct (IH s' Hs') as (Hle' & Hfin' & Hcount').
    cbn [fst snd]. split; [lia|]. split; [exact Hfin'|].
    rewrite count_events_app, Hcount, Hcount'.
    destruct (Z.ltb_spec (restarts s) (max_restarts a));
      destruct (Z.ltb_spec (restarts s') (max_restarts a));
      destruct (Z.eqb_spec (restarts s') (max_restarts a));
      destruct (Z.eqb_spec (restarts (fst (run a ss s' rest))) (max_restarts a));
      simpl; lia.
Qed.

(** C2.  The counter starts at 0.  Handling an unexpected exit (the stop
    check found the flag clear) adds exactly 1; the deliberate stop (the
    stop check found the flag set) and every other reaction, signals
    included, leave it as it is; so after any run it equals the number of
    "ffmpeg exited" lines written.  With a maximum R > 0 the counter never
    exceeds R, the "max restarts reached" line has been written exactly
    when the counter is R, and the loop is over whenever the counter is R. *)
Theorem restart_accounting (a : Args) (ss : session) :
  restarts init = 0 /\
  (forall s e pid rc,
     pc s = AtStopCheck pid rc -> stop s = false ->
     exists s' evs, step a ss s e = Some (s', evs) /\
                    restarts s' = restarts s + 1) /\
  (forall s e pid rc s' evs,
     pc s = AtStopCheck pid rc -> stop s = true ->
     step a ss s e = Some (s', evs) -> restarts s' = restarts s) /\
  (forall s i s' evs,
     react a ss s i = Some (s', evs) ->
     restarts s' = restarts s \/
     restarts s' = restarts s + 1 /\ stop s = false /\
     exists pid rc, pc s = AtStopCheck pid rc) /\
  (forall inputs,
     restarts (fst (run a ss init inputs)) =
     count_events is_exit_marker (snd (run a ss init inputs))) /\
  (0 < max_restarts a ->
   forall inputs,
     0 <= restarts (fst (run a ss init inputs)) <= max_restarts a /\
     (restarts (fst (run a ss init inputs)) = max_restarts a <->
      count_events is_budget_marker (snd (run a ss init inputs)) = 1) /\
     (restarts (fst (run a ss init inputs)) < max_restarts a <->
      count_events is_budget_marker (snd (run a ss init inputs)) = 0) /\
     (restarts (fst (run a ss init inputs)) = max_restarts a ->
      finished (fst (run a ss init inputs)) = true /\
      settled (fst (run a ss init inputs)) = true)).
Proof.
  split; [reflexivity|].
  split.
  { intros s e pid rc Hpc Hstop. unfold step. rewrite Hpc, Hstop.
    destruct (budget_exhausted a (restarts s + 1)); eexists; eexists;
      split; reflexivity. }
  split.
  { intros s e pid rc s' evs Hpc Hstop H.
    destruct (react_counts_exits a ss s (Step e) s' evs H)
      as [_ [Heq|(_ & Hclear & _)]]; congruence. }
  split.
  { intros s i s' evs H. now destruct (react_counts_exits _ _ _ _ _ _ H). }
  split.
  { intros inputs. now rewrite run_counts_exits. }
  intros HR inputs.
  destruct (run_budget a ss inputs HR init) as (Hle & Hfin & Hcount).
  { left. exact HR. }
  change (restarts init) with 0 in *.
  replace (0 <? max_restarts a) with true in Hcount
    by (symmetry; apply Z.ltb_lt; lia).
  cbn [andb] in Hcount. rewrite Hcount.
  destruct (Z.eqb_spec (restarts (fst (run a ss init inputs))) (max_restarts a)).
  - repeat split; try lia.
    + now apply Hfin.
    + specialize (Hfin e). unfold finished, settled in *.
      destruct (pc (fst (run a ss init inputs))); auto; discriminate.
  - repeat split; try lia; intros; try lia; contradiction.
Qed.

Lemma restart_accounting_witness :
  0 <= restarts (fst (run (with_limits 0 2 0) sample_session init
                          (repeat (Step failing) 12))) <= 2 /\
  (restarts (fst (run (with_limits 0 2 0) sample_session init
                      (repeat (Step failing) 12))) = 2 <->
   count_events is_budget_marker
     (snd (run (with_limits 0 2 0) sample_session init
               (repeat (Step failing) 12))) = 1) /\
  restarts (fst (run (with_limits 0 2 0) sample_session init
                     (repeat (Step failing) 12))) = 2.
Proof.
  pose proof (proj2 (proj2 (proj2 (proj2 (proj2
                (restart_accounting (with_limits 0 2 0) sample_session)))))
                eq_refl (repeat (Step failing) 12)) as (H1 & H2 & _).
  split; [exact H1|]. split; [exact H2|]. reflexivity.
Defined.

(** *** Launch failure and the launch count *)

Lemma log_of_app (xs ys : list event) :
  log_of (xs ++ ys) = log_of xs ++ log_of ys.
Proof.
  induction xs as [|ev xs IH]; simpl; [reflexivity|].
  destruct ev; simpl; now rewrite ?IH.
Qed.

Lemma reported_launches_app (xs ys : list event) :
  reported_launches (xs ++ ys) =
  match reported_launches xs with
  | Some n => Some n
  | None => reported_launches ys
  end.
Proof.
  induction xs as [|ev xs IH]; simpl; [reflexivity|].
  destruct ev; auto. destruct m; auto.
Qed.

Lemma launches_count (evs : list event) :
  launches evs = count_events is_launch evs.
Proof. reflexivity. Qed.

(** Invariants that relate a state to the trace that led to it. *)
Lemma run_trace_invariant (a : Args) (ss : session)
  (P : state -> list event -> Prop) :
  (forall s tr i s' evs,
     P s tr -> react a ss s i = Some (s', evs) -> P s' (tr ++ evs)) ->
  forall inputs s tr,
    P s tr -> P (fst (run a ss s inputs)) (tr ++ snd (run a ss s inputs)).
Proof.
  intros Hstep inputs.
  induction inputs as [|i rest IH]; intros s tr Hs.
  - simpl. now rewrite app_nil_r.
  - rewrite run_cons.
    destruct (react a ss s i) as [[s' evs]|] eqn:E; [|now apply IH].
    simpl. rewrite app_assoc. apply IH. eapply Hstep; eauto.
Qed.

Lemma react_launch_counts (a : Args) (ss : session) s tr i s' evs :
  launch_counts s tr ->
  react a ss s i = Some (s', evs) ->
  launch_counts s' (tr ++ evs).
Proof.
  intros Hs H. destruct s as [st rs l]. unfold launch_counts in *.
  rewrite launches_count in *. rewrite !count_events_app.
  destruct i as [sg|e].
  - react_cases H; simpl in *; unfold count_events in *; simpl; auto; lia.
  - destruct l;
      try (react_cases H; simpl in *; unfold count_events in *; simpl;
           auto; lia).
    unfold react, step in H. cbn [pc stop restarts goto] in H. simpl in Hs.
    destruct st.
    + destruct (Terminator._kill_process_group _ _) as [[[[]|x] tevs]|] eqn:E;
        inversion H; subst; clear H; simpl; exact I.
    + destruct (budget_exhausted a (rs + 1)); inversion H; subst; clear H;
        simpl; auto.
      destruct returncode as [[| |]|]; unfold count_events in *; simpl; lia.
Qed.

Lemma react_log_before_first_launch (a : Args) (ss : session) s tr i s' evs :
  log_before_first_launch ss s tr ->
  react a ss s i = Some (s', evs) ->
  log_before_first_launch ss s' (tr ++ evs).
Proof.
  intros [H0 Hs] H. destruct s as [st rs l]. unfold log_before_first_launch in *.
  rewrite log_of_app.
  destruct i as [sg|e].
  - react_cases H; simpl in *; (split; [lia|]); auto;
      intros Hz; rewrite (Hs Hz); reflexivity.
  - destruct l;
      try (react_cases H; simpl in *; (split; [lia|]); auto; try lia;
           intros Hz; try lia; rewrite (Hs Hz); subst; reflexivity).
Qed.

Lemma react_summary_state (a : Args) (ss : session) s tr i s' evs :
  summary_state s tr ->
  react a ss s i = Some (s', evs) ->
  summary_state s' (tr ++ evs).
Proof.
  intros Hs H. destruct s as [st rs l]. unfold summary_state in *.
  rewrite reported_launches_app.
  destruct i as [sg|e].
  - react_cases H; simpl in *; rewrite Hs; reflexivity.
  - destruct l;
      try (react_cases H; simpl in *; rewrite Hs; reflexivity).
    unfold react, step in H. cbn [pc stop restarts goto] in H. simpl in Hs.
    rewrite Hs.
    assert (Hterm : forall fuel te r tevs tail,
              Terminator._kill_process_group fuel te = Some (r, tevs) ->
              reported_launches (tevs ++ tail) = reported_launches tail).
    { intros fuel te r tevs tail E.
      apply TerminatorFacts.kill_process_group_events in E.
      induction tevs as [|ev tevs IH]; [reflexivity|].
      simpl in E. apply andb_true_iff in E as [E1 E2].
      destruct ev; try discriminate E1; simpl; auto. }
    destruct st.
    + destruct (Terminator._kill_process_group _ _) as [[[[]|x] tevs]|] eqn:E;
        inversion H; subst; clear H; simpl; now rewrite (Hterm _ _ _ _ _ E).
    + destruct (budget_exhausted a (rs + 1)); inversion H; subst; clear H;
        simpl; destruct returncode as [[| |]|]; reflexivity.
Qed.

Lemma setup_counts (a : Args) (ss : session) :
  launches (setup a ss) = 0 /\
  count_events is_launch_marker (setup a ss) = 0 /\
  log_of (setup a ss) = [LSessionStarted; LCmd (cmd ss)] /\
  reported_launches (setup a ss) = None /\
  filter is_parser_error (setup a ss) = [].
Proof.
  unfold setup, ensure_dir.
  destruct (out a); destruct (log_dir ss); repeat split.
Qed.

(** The summary line always reports the counter plus one. *)
Lemma summary_reports_counter_plus_one (a : Args) (ss : session) inputs :
  halted (fst (main a ss inputs)) = Some Returned ->
  reported_launches (snd (main a ss inputs)) =
  Some (restarts (fst (main a ss inputs)) + 1).
Proof.
  unfold main. destruct (validate a); [discriminate|].
  set_up_cases a ss evs0 x0 Hev0; [|simpl; discriminate].
  pose proof (run_trace_invariant a ss summary_state
                (react_summary_state a ss) inputs init (setup a ss)) as H.
  destruct (run a ss init inputs) as [s tr]. simpl in *.
  unfold summary_state, halted in *.
  intros Hh. destruct (pc s) as [| | | | | | | |[]]; try discriminate.
  apply H. apply (setup_counts a ss).
Qed.

Lemma react_stop_counts (a : Args) (ss : session) s tr i s' evs :
  stop_counts s tr ->
  react a ss s i = Some (s', evs) ->
  stop_counts s' (tr ++ evs).
Proof.
  intros Hs H. destruct s as [st rs l]. unfold stop_counts in *.
  rewrite launches_count in *. rewrite !count_events_app.
  destruct i as [sg|e].
  - react_cases H; simpl in *; unfold count_events in *; simpl; auto; lia.
  - destruct l;
      try (react_cases H; simpl in *; unfold count_events in *; simpl;
           auto; lia).
    unfold react, step in H. cbn [pc stop restarts goto] in H. simpl in Hs.
    destruct st.
    + destruct (Terminator._kill_process_group _ _) as [[[[]|x] tevs]|] eqn:E;
        inversion H; subst; clear H; simpl; auto.
      rewrite !count_events_app.
      rewrite (count_events_none is_launch tevs),
              (count_events_none is_stop_marker tevs).
      * unfold count_events in *; simpl; lia.
      * apply (terminator_filter is_stop_marker _ _ _ _
                 ltac:(terminator_event) E).
      * apply (terminator_filter is_launch _ _ _ _
                 ltac:(terminator_event) E).
    + destruct (budget_exhausted a (rs + 1)); inversion H; subst; clear H;
        simpl; destruct returncode as [[| |]|];
        unfold count_events in *; simpl; lia.
Qed.

(** The summary line is right exactly for the sessions that end on the stop
    path; for all others it is one too high. *)
Lemma summary_right_only_after_stop (a : Args) (ss : session) inputs :
  halted (fst (main a ss inputs)) = Some Returned ->
  (count_events is_stop_marker (snd (main a ss inputs)) = 1 /\
   reported_launches (snd (main a ss inputs)) =
     Some (launches (snd (main a ss inputs))))
  \/
  (count_events is_stop_marker (snd (main a ss inputs)) = 0 /\
   reported_launches (snd (main a ss inputs)) =
     Some (launches (snd (main a ss inputs)) + 1)).
Proof.
  intros Hh. rewrite (summary_reports_counter_plus_one a ss inputs Hh).
  revert Hh. unfold main. destruct (validate a); [discriminate|].
  set_up_cases a ss evs0 x0 Hev0; [|simpl; discriminate].
  pose proof (run_trace_invariant a ss stop_counts
                (react_stop_counts a ss) inputs init (setup a ss)) as H.
  destruct (run a ss init inputs) as [s tr]. simpl in *.
  unfold stop_counts, halted in *.
  intros Hh. destruct (pc s) as [| | | | | | | |[]]; try discriminate.
  destruct H as [H1 H2].
  { destruct (setup_counts a ss) as (S1 & _).
    split; [exact S1|].
    unfold setup, ensure_dir. destruct (out a); destruct (log_dir ss);
      reflexivity. }
  assert (Hc : count_events is_stop_marker (setup a ss ++ tr) = 1
               \/ count_events is_stop_marker (setup a ss ++ tr) = 0) by lia.
  destruct Hc as [Hc|Hc]; [left|right]; (split; [exact Hc|]);
    f_equal; lia.
Qed.

(** C3, on the code.  With at most 2 restarts and a child that has exited
    at every first poll, the session ends normally with the counter at 2
    after starting 2 children, and its summary line reports 3 launches. *)
Theorem summary_overcounts_launches :
  halted (fst (main (with_limits 0 2 0) sample_session
                    (repeat (Step failing) 12))) = Some Returned /\
  restarts (fst (main (with_limits 0 2 0) sample_session
                      (repeat (Step failing) 12))) = 2 /\
  launches (snd (main (with_limits 0 2 0) sample_session
                      (repeat (Step failing) 12))) = 2 /\
  reported_launches (snd (main (with_limits 0 2 0) sample_session
                               (repeat (Step failing) 12))) = Some 3 /\
  ~ summary_counts_launches (with_limits 0 2 0) sample_session.
Proof.
  repeat split; try (vm_compute; reflexivity).
  intros H. specialize (H (repeat (Step failing) 12) 3 eq_refl).
  vm_compute in H. discriminate H.
Qed.

(** C4, as the code has it.  When [subprocess.Popen] raises
    [FileNotFoundError] or [PermissionError] the process exits at once with
    status 1: no child is started, the step has written the launch marker
    of the attempt, and nothing reacts afterwards.  A session that ends
    this way has written one launch marker more than it started children,
    and has started as many children as the counter says; when the counter
    is 0 (the first attempt failed) the log is the session header, the
    command line and the marker of launch 0. *)
Theorem fatal_launch_failure (a : Args) (ss : session) :
  (forall s e,
     pc s = AtLaunch ->
     o_popen e = Raise FileNotFoundError \/ o_popen e = Raise PermissionError ->
     exists evs,
       step a ss s e = Some (goto s (Halted (SysExit 1)), evs) /\
       exit_status (SysExit 1) <> 0 /\
       launches evs = 0 /\
       log_of evs = [LLaunching (restarts s)] /\
       forall i, react a ss (goto s (Halted (SysExit 1))) i = None) /\
  (forall inputs,
     halted (fst (main a ss inputs)) = Some (SysExit 1) ->
     launches (snd (main a ss inputs)) = restarts (fst (main a ss inputs)) /\
     count_events is_launch_marker (snd (main a ss inputs)) =
       launches (snd (main a ss inputs)) + 1 /\
     (restarts (fst (main a ss inputs)) = 0 ->
      log_of (snd (main a ss inputs)) =
        [LSessionStarted; LCmd (cmd ss); LLaunching 0])).
Proof.
  split.
  - intros s e Hpc Hpopen. unfold step. rewrite Hpc.
    destruct Hpopen as [-> | ->]; eexists; repeat split;
      try discriminate; intros [sg|e']; reflexivity.
  - intros inputs. unfold main.
    destruct (validate a); [discriminate|].
    set_up_cases a ss evs0 x0 Hev0; [|simpl; discriminate].
    pose proof (run_trace_invariant a ss launch_counts
                  (react_launch_counts a ss) inputs init (setup a ss)) as HC.
    pose proof (run_trace_invariant a ss (log_before_first_launch ss)
                  (react_log_before_first_launch a ss) inputs init
                  (setup a ss)) as HL.
    destruct (setup_counts a ss) as (S1 & S2 & S3 & _).
    destruct (run a ss init inputs) as [s tr]. simpl in *.
    unfold halted. intros Hh.
    destruct (pc s) as [| | | | | | | |[]] eqn:Hpc; try discriminate.
    unfold launch_counts, log_before_first_launch in *. rewrite Hpc in *.
    destruct HC as [C1 C2]; [simpl; auto|].
    destruct HL as [_ L]; [simpl; split; [lia|auto]|].
    repeat split; auto. lia.
Qed.

Lemma fatal_launch_failure_witness :
  halted (fst (main default_args sample_session
                    [Step missing; Step missing; Step missing]))
  = Some (SysExit 1) /\
  count_events is_launch_marker
    (snd (main default_args sample_session
               [Step missing; Step missing; Step missing])) =
  launches (snd (main default_args sample_session
                      [Step missing; Step missing; Step missing])) + 1 /\
  log_of (snd (main default_args sample_session
                    [Step missing; Step missing; Step missing])) =
  [LSessionStarted; LCmd (cmd sample_session); LLaunching 0].
Proof.
  pose proof (proj2 (fatal_launch_failure default_args sample_session)
                    [Step missing; Step missing; Step missing] eq_refl)
    as (_ & H2 & H3).
  split; [reflexivity|]. split; [exact H2|]. apply H3. reflexivity.
Defined.

(** C4 as the specification states it fails: the marker of the failed
    attempt is in the log. *)
Lemma missing_binary_counterexample :
  ~ fatal_exit_leaves_no_launch_marker default_args sample_session.
Proof.
  intros H.
  specialize (H [Step missing; Step missing; Step missing] eq_refl).
  vm_compute in H. discriminate H.
Qed.

(** *** A clean exit is restarted like any other *)

Lemma delay_runs_out (a : Args) (ss : session) (e : oracle) s :
  stop s = false ->
  forall n,
    run a ss (goto s (AtDelay n)) (repeat (Step e) (S n)) =
    (goto s AtLoopHead, repeat (ESleep 1) n).
Proof.
  intros Hs. induction n as [|n IH].
  - reflexivity.
  - change (repeat (Step e) (S (S n))) with (Step e :: repeat (Step e) (S n)).
    rewrite run_cons. unfold react, step. cbn [pc stop goto]. rewrite Hs.
    change (goto (goto s (AtDelay (S n))) (AtDelay n)) with (goto s (AtDelay n)).
    rewrite IH. reflexivity.
Qed.

Lemma relaunch_after_delay (a : Args) (ss : session) (e : oracle) s pid n :
  stop s = false ->
  deadline_reached a (o_clock e - session_start ss) = false ->
  o_popen e = Ok pid ->
  run a ss (goto s (AtDelay n)) (repeat (Step e) (n + 4)) =
  (goto s (AtPoll pid),
   repeat (ESleep 1) n ++
   [EMonotonic (o_clock e); EWrite (LLaunching (restarts s));
    EPrint (MLaunching (restarts s)); EPopen (Ok pid)]).
Proof.
  intros Hs Hd Hp.
  replace (n + 4)%nat with (S n + 3)%nat by lia.
  assert (Hgo : run a ss (goto s AtLoopHead) (repeat (Step e) 3) =
                (goto s (AtPoll pid),
                 [EMonotonic (o_clock e); EWrite (LLaunching (restarts s));
                  EPrint (MLaunching (restarts s)); EPopen (Ok pid)])).
  { cbn [repeat run react]. unfold step.
    cbn [pc stop goto restarts]. rewrite Hs.
    cbn [pc stop goto restarts]. rewrite Hd.
    cbn [pc stop goto restarts]. rewrite Hp.
    reflexivity. }
  rewrite repeat_app, run_app, (delay_runs_out a ss e s Hs n).
  cbn [fst snd]. rewrite Hgo. reflexivity.
Qed.

(** C7.  A child that exited with code 0 while the stop flag is clear: the
    code is written to the log as it is, the note on a clean exit is
    printed (and only for code 0), the counter goes up by one, and the loop
    goes on exactly as for any other code [rc] -- to its end when the
    restart budget is used up, else through the restart delay to another
    launch, provided no signal arrives and the deadline has not passed. *)
Theorem clean_exit_restarts (a : Args) (ss : session) s e pid :
  pc s = AtStopCheck pid (Some 0) ->
  stop s = false ->
  exists s' evs,
    step a ss s e = Some (s', evs) /\
    In (EWrite (LExited (Some 0))) evs /\
    In (EPrint MCleanExitNote) evs /\
    restarts s' = restarts s + 1 /\
    stop s' = false /\
    (forall rc, exists evs',
       step a ss (goto s (AtStopCheck pid (Some rc))) e = Some (s', evs') /\
       In (EWrite (LExited (Some rc))) evs' /\
       (rc <> 0 -> ~ In (EPrint MCleanExitNote) evs')) /\
    (budget_exhausted a (restarts s + 1) = true -> pc s' = AtEnd) /\
    (budget_exhausted a (restarts s + 1) = false ->
     pc s' = AtDelay (Z.to_nat (restart_delay a)) /\
     forall e' pid',
       deadline_reached a (o_clock e' - session_start ss) = false ->
       o_popen e' = Ok pid' ->
       run a ss s' (repeat (Step e') (Z.to_nat (restart_delay a) + 4)) =
       (goto s' (AtPoll pid'),
        repeat (ESleep 1) (Z.to_nat (restart_delay a)) ++
        [EMonotonic (o_clock e'); EWrite (LLaunching (restarts s + 1));
         EPrint (MLaunching (restarts s + 1)); EPopen (Ok pid')])).
Proof.
  intros Hpc Hstop. destruct s as [st rs l]. simpl in Hpc, Hstop. subst.
  unfold step. cbn [pc stop restarts goto].
  destruct (budget_exhausted a (rs + 1)) eqn:Hb.
  - eexists. eexists. split; [reflexivity|]. simpl.
    repeat split; auto; try discriminate.
    intros rc. eexists. split; [reflexivity|]. split; [simpl; auto|].
    intros Hrc Hin. simpl in Hin.
    destruct rc as [| |]; [congruence| |];
      repeat destruct Hin as [Hin|Hin]; try discriminate; auto.
  - eexists. eexists. split; [reflexivity|]. simpl.
    repeat split; auto; try discriminate.
    + intros rc. eexists. split; [reflexivity|]. split; [simpl; auto|].
      intros Hrc Hin. simpl in Hin.
      destruct rc as [| |]; [congruence| |];
        repeat destruct Hin as [Hin|Hin]; try discriminate; auto.
    + intros e' pid' Hd Hp.
      apply (relaunch_after_delay a ss e'
               {| stop := false; restarts := rs + 1;
                  pc := AtStopCheck pid (Some 0) |} pid'); auto.
Qed.

Lemma clean_exit_restarts_witness :
  exists s' evs,
    step default_args sample_session
         {| stop := false; restarts := 0; pc := AtStopCheck 4242 (Some 0) |}
         running = Some (s', evs) /\
    In (EPrint MCleanExitNote) evs /\
    restarts s' = 1 /\
    run default_args sample_session s' (repeat (Step running) 9) =
    (goto s' (AtPoll 4242),
     repeat (ESleep 1) 5 ++
     [EMonotonic 101; EWrite (LLaunching 1); EPrint (MLaunching 1);
      EPopen (Ok 4242)]).
Proof.
  destruct (clean_exit_restarts default_args sample_session
              {| stop := false; restarts := 0; pc := AtStopCheck 4242 (Some 0) |}
              running 4242 eq_refl eq_refl)
    as (s' & evs & Hstep & _ & Hnote & Hcount & _ & _ & _ & Hgo).
  exists s', evs. repeat split; auto.
  destruct (Hgo eq_refl) as [_ Hrun].
  exact (Hrun running 4242 eq_refl eq_refl).
Defined.

(** *** Signals *)

Lemma deliver_signals (a : Args) (ss : session) (sigs : list signum) :
  forallb installed sigs = true ->
  forall s,
    halted s = None ->
    run a ss s (map Signal sigs) =
    (match sigs with [] => s | _ => set_stop s end, notices sigs).
Proof.
  induction sigs as [|sg sigs IH]; intros Hin s Hs; [reflexivity|].
  simpl in Hin. apply andb_true_iff in Hin as [Hsg Hsigs].
  cbn [map]. rewrite run_cons. unfold react, handle_sig.
  unfold halted in Hs. rewrite Hsg.
  destruct (pc s) eqn:Hpc; try discriminate;
    (rewrite (IH Hsigs (set_stop s))
       by (unfold halted; cbn [set_stop pc]; now rewrite Hpc));
    destruct sigs; reflexivity.
Qed.

Lemma signals_on_halted (a : Args) (ss : session) (sigs : list signum) s :
  halted s <> None -> run a ss s (map Signal sigs) = (s, []).
Proof.
  intros Hs. induction sigs as [|sg sigs IH]; [reflexivity|].
  cbn [map]. rewrite run_cons. unfold react.
  unfold halted in Hs. destruct (pc s); first [exact IH | congruence].
Qed.

(** C9.  Delivering SIGINT or SIGTERM any number of times n >= 1 in a row
    leaves the supervisor in the state one delivery leaves it in, so every
    continuation runs identically; to a running supervisor each delivery
    does nothing but set the flag and print its notice. *)
Theorem stop_idempotent (a : Args) (ss : session) s sigs sg :
  sigs <> [] ->
  forallb installed sigs = true ->
  installed sg = true ->
  fst (run a ss s (map Signal sigs)) = fst (run a ss s [Signal sg]) /\
  (forall rest,
     run a ss (fst (run a ss s (map Signal sigs))) rest =
     run a ss (fst (run a ss s [Signal sg])) rest) /\
  (halted s = None ->
   run a ss s (map Signal sigs) = (set_stop s, notices sigs) /\
   stop (fst (run a ss s (map Signal sigs))) = true /\
   restarts (fst (run a ss s (map Signal sigs))) = restarts s /\
   pc (fst (run a ss s (map Signal sigs))) = pc s).
Proof.
  intros Hne Hin Hsg.
  assert (Heq : fst (run a ss s (map Signal sigs))
                = fst (run a ss s [Signal sg])).
  { destruct (halted s) eqn:Hs.
    - rewrite (signals_on_halted a ss sigs s) by congruence.
      change [Signal sg] with (map Signal [sg]).
      rewrite (signals_on_halted a ss [sg] s) by congruence. reflexivity.
    - rewrite (deliver_signals a ss sigs Hin s Hs).
      change [Signal sg] with (map Signal [sg]).
      rewrite (deliver_signals a ss [sg]) by (simpl; auto; now rewrite Hsg).
      destruct sigs; [contradiction|reflexivity]. }
  split; [exact Heq|]. split; [intros rest; now rewrite Heq|].
  intros Hs. rewrite (deliver_signals a ss sigs Hin s Hs).
  destruct sigs; [contradiction|]. repeat split.
Qed.

Lemma stop_idempotent_witness :
  fst (run default_args sample_session (goto init (AtPoll 4242))
           (map Signal [SIGINT; SIGTERM; SIGINT]))
  = fst (run default_args sample_session (goto init (AtPoll 4242))
             [Signal SIGTERM]) /\
  run default_args sample_session (goto init (AtPoll 4242))
      (map Signal [SIGINT; SIGTERM; SIGINT])
  = (set_stop (goto init (AtPoll 4242)), notices [SIGINT; SIGTERM; SIGINT]).
Proof.
  destruct (stop_idempotent default_args sample_session
              (goto init (AtPoll 4242)) [SIGINT; SIGTERM; SIGINT] SIGTERM
              ltac:(discriminate) eq_refl eq_refl) as (H1 & _ & H3).
  split; [exact H1|]. exact (proj1 (H3 eq_refl)).
Defined.

(** *** Validation *)

Lemma react_no_parser_error (a : Args) (ss : session) s i s' evs :
  react a ss s i = Some (s', evs) -> filter is_parser_error evs = [].
Proof.
  intros H. destruct s as [st rs l].
  destruct i as [sg|e].
  - react_cases H; reflexivity.
  - destruct l; try (react_cases H; reflexivity).
    unfold react, step in H. cbn [pc stop restarts goto] in H.
    destruct st.
    + destruct (Terminator._kill_process_group _ _) as [[[[]|x] tevs]|] eqn:E;
        inversion H; subst; clear H; rewrite filter_app;
        rewrite (terminator_filter is_parser_error _ _ _ _
                   ltac:(terminator_event) E);
        reflexivity.
    + destruct (budget_exhausted a (rs + 1)); inversion H; subst; clear H;
        destruct returncode as [[| |]|]; reflexivity.
Qed.

Lemma run_no_parser_error (a : Args) (ss : session) (inputs : list input) :
  forall s, filter is_parser_error (snd (run a ss s inputs)) = [].
Proof.
  induction inputs as [|i rest IH]; intros s; [reflexivity|].
  rewrite run_cons.
  destruct (react a ss s i) as [[s' evs]|] eqn:E; [|apply IH].
  simpl. rewrite filter_app, (react_no_parser_error _ _ _ _ _ _ E), IH.
  reflexivity.
Qed.

Lemma validate_spec (a : Args) :
  (segment a <= 0 \/ restart_delay a < 0 \/ max_restarts a < 0
   \/ max_duration a < 0) <-> validate a <> None.
Proof.
  unfold validate.
  destruct (Z.leb_spec (segment a) 0);
    [split; [discriminate|intros _; lia]|].
  destruct (Z.ltb_spec (restart_delay a) 0);
    [split; [discriminate|intros _; lia]|].
  destruct (Z.ltb_spec (max_restarts a) 0);
    [split; [discriminate|intros _; lia]|].
  destruct (Z.ltb_spec (max_duration a) 0);
    [split; [discriminate|intros _; lia]|].
  split; [lia|congruence].
Qed.

(** The loop leaves through [sys.exit] with status 1 only. *)
Lemma react_sys_exit (a : Args) (ss : session) s i s' evs :
  (forall status, pc s = Halted (SysExit status) -> status = 1) ->
  react a ss s i = Some (s', evs) ->
  forall status, pc s' = Halted (SysExit status) -> status = 1.
Proof.
  intros Hs H status. destruct s as [st rs l].
  react_cases H; simpl; intros Hpc; try discriminate Hpc;
    first [ now inversion Hpc | now apply Hs ].
Qed.

(** C10.  When the segment length is not positive, or the restart delay,
    the restart limit or the maximum duration is negative, [main] ends in
    the parser's error exit (status 2) having done nothing else: no
    directory made, no log opened, no child started.  For all other
    arguments no parser error occurs, the process never ends with the
    parser's status 2, and a set-up that goes through is what the session
    begins with. *)
Theorem validation_precedes_effects (a : Args) (ss : session)
  (inputs : list input) :
  (segment a <= 0 \/ restart_delay a < 0 \/ max_restarts a < 0
   \/ max_duration a < 0 ->
   exists msg,
     main a ss inputs = (goto init (Halted (SysExit 2)), [EParserError msg]) /\
     exit_status (SysExit 2) <> 0 /\
     filter is_effect (snd (main a ss inputs)) = []) /\
  (0 < segment a -> 0 <= restart_delay a -> 0 <= max_restarts a ->
   0 <= max_duration a ->
   filter is_parser_error (snd (main a ss inputs)) = [] /\
   halted (fst (main a ss inputs)) <> Some (SysExit 2) /\
   (set_up a ss = (setup a ss, None) ->
    exists tr, snd (main a ss inputs) = setup a ss ++ tr)).
Proof.
  split.
  - intros Hbad. apply validate_spec in Hbad. unfold main.
    destruct (validate a) as [msg|]; [|congruence].
    exists msg. repeat split. discriminate.
  - intros H1 H2 H3 H4. unfold main.
    destruct (validate a) as [msg|] eqn:Hv.
    { assert (Hbad : validate a <> None) by congruence.
      apply validate_spec in Hbad. lia. }
    set_up_cases a ss evs0 x0 Hev0.
    + pose proof (run_no_parser_error a ss inputs init) as Hp.
      pose proof (run_invariant a ss
                    (fun s => forall status,
                       pc s = Halted (SysExit status) -> status = 1)
                    (fun s i s' evs Hs H => react_sys_exit a ss s i s' evs Hs H)
                    inputs init) as Hst.
      destruct (setup_counts a ss) as (_ & _ & _ & _ & S5).
      destruct (run a ss init inputs) as [s tr]. simpl in *.
      repeat split.
      * now rewrite filter_app, S5, Hp.
      * unfold halted. destruct (pc s) as [| | | | | | | |h] eqn:Hpc;
          try discriminate.
        intros Hh. inversion Hh; subst.
        specialize (Hst ltac:(discriminate) 2 eq_refl). discriminate.
      * intros _. now exists tr.
    + simpl. repeat split.
      * apply (startup_filter is_parser_error evs0); [startup_event|exact Hev0].
      * discriminate.
      * intros Heq. inversion Heq.
Qed.

Lemma validation_precedes_effects_witness :
  (exists msg,
     main (with_limits (-1) 0 0) sample_session [Step running] =
     (goto init (Halted (SysExit 2)), [EParserError msg])) /\
  filter is_parser_error
    (snd (main default_args sample_session
               [Step running; Step running; Step running])) = [].
Proof.
  split.
  - destruct (proj1 (validation_precedes_effects (with_limits (-1) 0 0)
                       sample_session [Step running]))
      as (msg & Hmain & _).
    + right. left. reflexivity.
    + exists msg. exact Hmain.
  - apply (proj2 (validation_precedes_effects default_args sample_session
                    [Step running; Step running; Step running]));
      [reflexivity | discriminate | discriminate | discriminate].
Defined.

End SupervisorFacts.

(** * Further properties *)

(** ** The ffmpeg command line *)

Module CommandFacts.
Import Supervisor Command.

Lemma append_nil_r (s : string) : (s ++ "")%string = s.
Proof. induction s as [|c s IH]; simpl; [reflexivity|now rewrite IH]. Qed.

Lemma append_assoc (s t u : string) :
  ((s ++ t) ++ u)%string = (s ++ (t ++ u))%string.
Proof. induction s as [|c s IH]; simpl; [reflexivity|now rewrite IH]. Qed.

Lemma append_empty (s t : string) :
  (s ++ t)%string = EmptyString -> s = EmptyString /\ t = EmptyString.
Proof. destruct s; simpl; [auto|discriminate]. Qed.

Lemma no_space_app (s t : string) :
  no_space (s ++ t) = no_space s && no_space t.
Proof.
  induction s as [|c s IH]; simpl; [reflexivity|].
  now rewrite IH, andb_assoc.
Qed.

(** *** Splitting the extra arguments *)

Lemma split_from_blank (s : string) :
  all_space s = true ->
  forall word,
    split_from word s = match word with EmptyString => [] | _ => [word] end.
Proof.
  induction s as [|c s IH]; simpl; intros H word; [reflexivity|].
  apply andb_true_iff in H as [Hc Hs]. rewrite Hc.
  destruct word; now rewrite IH.
Qed.

Lemma rstrip_empty (s : string) :
  rstrip s = EmptyString <-> all_space s = true.
Proof.
  induction s as [|c s IH]; simpl; [tauto|].
  destruct (rstrip s) eqn:E.
  - destruct (isspace c); simpl; [tauto|]. split; discriminate.
  - split; [discriminate|]. intros H. apply andb_true_iff in H as [_ H].
    apply IH in H. discriminate.
Qed.

Lemma lstrip_empty (s : string) :
  lstrip s = EmptyString <-> all_space s = true.
Proof.
  induction s as [|c s IH]; simpl; [tauto|].
  destruct (isspace c); simpl; [exact IH|]. split; discriminate.
Qed.

Lemma all_space_lstrip (s : string) :
  all_space (lstrip s) = all_space s.
Proof.
  induction s as [|c s IH]; simpl; [reflexivity|].
  destruct (isspace c) eqn:E; simpl; [exact IH|now rewrite E].
Qed.

Lemma strip_empty (s : string) :
  strip s = EmptyString <-> all_space s = true.
Proof. unfold strip. now rewrite rstrip_empty, all_space_lstrip. Qed.

Lemma split_lstrip (s : string) : split (lstrip s) = split s.
Proof.
  unfold split. induction s as [|c s IH]; simpl; [reflexivity|].
  destruct (isspace c) eqn:E; [exact IH|]. simpl. now rewrite E.
Qed.

Lemma split_from_rstrip (s : string) :
  forall word, split_from word (rstrip s) = split_from word s.
Proof.
  induction s as [|c s IH]; intros word; [reflexivity|].
  simpl rstrip. destruct (rstrip s) as [|c' r] eqn:E.
  - assert (Hs : all_space s = true) by now apply rstrip_empty.
    simpl. destruct (isspace c) eqn:Hc; simpl; rewrite ?Hc.
    + destruct word; now rewrite (split_from_blank s Hs).
    + now rewrite (split_from_blank s Hs).
  - simpl. destruct (isspace c);
      [destruct word|]; now rewrite <- IH.
Qed.

Lemma split_strip (s : string) : split (strip s) = split s.
Proof.
  unfold strip. rewrite <- (split_lstrip s).
  unfold split. apply split_from_rstrip.
Qed.

Lemma split_from_words (s : string) :
  forall word,
    no_space word = true ->
    Forall (fun w => is_word w = true) (split_from word s).
Proof.
  induction s as [|c s IH]; simpl; intros word Hw.
  - destruct word; constructor; [exact Hw|constructor].
  - destruct (isspace c) eqn:Hc.
    + destruct word; [now apply IH|].
      constructor; [exact Hw|now apply IH].
    + apply IH. rewrite no_space_app, Hw. simpl. now rewrite Hc.
Qed.

Lemma split_from_word_prefix (x : string) :
  no_space x = true ->
  forall word s, split_from word (x ++ s) = split_from (word ++ x) s.
Proof.
  induction x as [|c x IH]; simpl; intros Hx word s.
  - now rewrite append_nil_r.
  - apply andb_true_iff in Hx as [Hc Hx].
    apply negb_true_iff in Hc. rewrite Hc, (IH Hx), append_assoc.
    reflexivity.
Qed.

Lemma split_nil_blank (s : string) :
  forall word, split_from word s = [] ->
               word = EmptyString /\ all_space s = true.
Proof.
  induction s as [|c s IH]; simpl; intros word H.
  - destruct word; [auto|discriminate].
  - destruct (isspace c) eqn:Hc.
    + destruct word; [|discriminate]. split; [reflexivity|].
      now destruct (IH _ H).
    + destruct (IH _ H) as [Hw _]. apply append_empty in Hw as [_ Hw].
      discriminate.
Qed.

Lemma parse_extra_split (s : string) : parse_extra s = split s.
Proof.
  unfold parse_extra. destruct (strip s) eqn:E.
  - apply strip_empty in E. unfold split. now rewrite (split_from_blank s E).
  - rewrite <- E. apply split_strip.
Qed.

(** X1.  The [strip()] and the test for an empty string in front of
    [split()] change nothing: the extra arguments are the whitespace
    separated words of the option's value as given. *)
Theorem parse_extra_is_split (s : string) : parse_extra s = split s.
Proof. exact (parse_extra_split s). Qed.

(** X2.  There are no extra arguments exactly when the option's value is
    empty or consists of whitespace only. *)
Theorem parse_extra_blank (s : string) :
  parse_extra s = [] <-> all_space s = true.
Proof.
  rewrite parse_extra_split. unfold split. split.
  - intros H. now destruct (split_nil_blank s _ H).
  - intros H. now rewrite (split_from_blank s H).
Qed.

(** X3.  Every extra argument is a word: it is not empty and contains no
    whitespace. *)
Theorem parse_extra_words (s : string) :
  Forall (fun w => is_word w = true) (parse_extra s).
Proof.
  rewrite parse_extra_split. now apply split_from_words.
Qed.

(** X4.  Words joined by single spaces are parsed back into the same
    words. *)
Theorem parse_extra_join (ws : list string) :
  Forall (fun w => is_word w = true) ws ->
  parse_extra (String.concat " " ws) = ws.
Proof.
  rewrite parse_extra_split. unfold split.
  induction 1 as [|x rest Hx Hrest IH]; [reflexivity|].
  assert (Hn : no_space x = true) by (destruct x; [discriminate|exact Hx]).
  assert (Hne : x <> EmptyString) by (intros ->; discriminate).
  destruct rest as [|y rest].
  - simpl. rewrite <- (append_nil_r x) at 1.
    rewrite (split_from_word_prefix x Hn). simpl.
    destruct x; [contradiction|reflexivity].
  - change (String.concat " " (x :: y :: rest))
      with (x ++ String " " (String.concat " " (y :: rest)))%string.
    rewrite (split_from_word_prefix x Hn). cbn [append].
    destruct x as [|c x]; [contradiction|].
    cbn [split_from]. change (isspace " ") with true. cbn iota.
    now rewrite IH.
Qed.

Lemma parse_extra_join_witness :
  parse_extra (String.concat " " ["-vf"; "scale=1280:720"; "-an"]%string)
  = ["-vf"; "scale=1280:720"; "-an"]%string.
Proof.
  apply parse_extra_join. repeat constructor.
Defined.

(** *** Building the command *)

Lemma path_join_pattern (out_dir : string) :
  path_join out_dir SEGMENT_PATTERN =
  (out_dir ++
   (match out_dir with
    | EmptyString => ""
    | _ => if endswith_sep out_dir then "" else "/"
    end) ++ SEGMENT_PATTERN)%string.
Proof.
  unfold path_join. change (startswith_sep SEGMENT_PATTERN) with false.
  cbn iota. destruct out_dir as [|c s]; [reflexivity|].
  destruct (endswith_sep (String c s)); reflexivity.
Qed.

(** X5.  Whatever the extra arguments are, [build_ffmpeg_cmd] puts them, in
    order, directly in front of the output pattern, which is the last
    argument; nothing in front of them depends on them.  With [n] extra
    arguments the command has 22 + n arguments, two more with [--tcp]; the
    output pattern is the output directory as given, a "/" unless the
    directory is empty or ends in one, and the segment file pattern. *)
Theorem build_ffmpeg_cmd_layout (rtsp_url out_dir : string)
  (segment_seconds : Z) (tcp : bool) (extra : list string) :
  build_ffmpeg_cmd rtsp_url out_dir segment_seconds tcp extra =
    removelast (build_ffmpeg_cmd rtsp_url out_dir segment_seconds tcp [])
    ++ extra ++ [path_join out_dir SEGMENT_PATTERN] /\
  List.length (build_ffmpeg_cmd rtsp_url out_dir segment_seconds tcp extra) =
    (22 + (if tcp then 2 else 0) + List.length extra)%nat /\
  last (build_ffmpeg_cmd rtsp_url out_dir segment_seconds tcp extra)
       EmptyString = path_join out_dir SEGMENT_PATTERN /\
  path_join out_dir SEGMENT_PATTERN =
    (out_dir ++
     (match out_dir with
      | EmptyString => ""
      | _ => if endswith_sep out_dir then "" else "/"
      end) ++ SEGMENT_PATTERN)%string.
Proof.
  repeat split.
  - destruct tcp; reflexivity.
  - unfold build_ffmpeg_cmd. destruct tcp; rewrite !length_app; simpl; lia.
  - unfold build_ffmpeg_cmd. rewrite last_last. reflexivity.
  - apply path_join_pattern.
Qed.

Lemma str_round_trip (n : Z) : read_decimal (str n) = Some n.
Proof.
  unfold read_decimal, str. rewrite NilZero.isi.
  - simpl. now rewrite DecimalZ.of_to.
  - destruct n; simpl; try discriminate.
    intros H. inversion H as [H']. now apply DecimalPos.Unsigned.to_uint_nonnil in H'.
  - destruct n; simpl; try discriminate.
    intros H. inversion H as [H']. now apply DecimalPos.Unsigned.to_uint_nonnil in H'.
Qed.

(** X6.  The argument after [-segment_time] is the decimal numeral of the
    segment length: read back as a number it gives the segment length, so
    commands built for different segment lengths differ. *)
Theorem segment_time_round_trip (rtsp_url out_dir : string)
  (segment_seconds : Z) (tcp : bool) (extra : list string) :
  nth (segment_time_index tcp - 1)
      (build_ffmpeg_cmd rtsp_url out_dir segment_seconds tcp extra)
      EmptyString = "-segment_time"%string /\
  read_decimal
    (nth (segment_time_index tcp)
         (build_ffmpeg_cmd rtsp_url out_dir segment_seconds tcp extra)
         EmptyString) = Some segment_seconds /\
  (forall segment_seconds',
     build_ffmpeg_cmd rtsp_url out_dir segment_seconds' tcp extra =
     build_ffmpeg_cmd rtsp_url out_dir segment_seconds tcp extra ->
     segment_seconds' = segment_seconds).
Proof.
  assert (Hnth : forall n,
            nth (segment_time_index tcp)
                (build_ffmpeg_cmd rtsp_url out_dir n tcp extra) EmptyString
            = str n) by (intros n; destruct tcp; reflexivity).
  repeat split.
  - destruct tcp; reflexivity.
  - rewrite Hnth. apply str_round_trip.
  - intros n' Heq.
    assert (Hs : str n' = str segment_seconds)
      by (rewrite <- !Hnth; now rewrite Heq).
    apply (f_equal read_decimal) in Hs. rewrite !str_round_trip in Hs.
    now inversion Hs.
Qed.

Lemma segment_time_round_trip_witness :
  read_decimal
    (nth (segment_time_index true)
         (build_ffmpeg_cmd "rtsp://camera/stream1" "/data" 600 true
                           ["-an"]%string)
         EmptyString) = Some 600 /\
  600 = 600.
Proof.
  destruct (segment_time_round_trip "rtsp://camera/stream1" "/data" 600 true
              ["-an"]%string) as (_ & Hread & Hinj).
  split; [exact Hread|]. exact (Hinj 600 eq_refl).
Defined.

(** X7.  In the command [main] builds, the arguments between [-strftime 1]
    and the final output pattern are exactly the words of
    [--extra-ffmpeg-args]; when that value is blank the command is the one
    built without extra arguments. *)
Theorem command_of_extra (a : Args) :
  command_of a =
    removelast (build_ffmpeg_cmd (rtsp a) (out a) (segment a) (tcp a) [])
    ++ split (extra_ffmpeg_args a)
    ++ [path_join (out a) SEGMENT_PATTERN] /\
  Forall (fun w => is_word w = true) (split (extra_ffmpeg_args a)) /\
  (all_space (extra_ffmpeg_args a) = true ->
   command_of a =
   build_ffmpeg_cmd (rtsp a) (out a) (segment a) (tcp a) []).
Proof.
  unfold command_of. rewrite parse_extra_split. repeat split.
  - destruct (tcp a); reflexivity.
  - now apply split_from_words.
  - intros H. unfold split. now rewrite (split_from_blank _ H).
Qed.

Lemma command_of_extra_witness :
  command_of default_args =
  build_ffmpeg_cmd (rtsp default_args) (out default_args)
                   (segment default_args) (tcp default_args) [].
Proof.
  exact (proj2 (proj2 (command_of_extra default_args)) eq_refl).
Defined.

End CommandFacts.

(** ** More on the terminator *)

Module TerminatorMore.
Import Terminator TerminatorFacts.

Lemma wait_events_in (evs : list event) ev :
  forallb is_wait evs = true -> In ev evs -> is_wait ev = true.
Proof.
  intros H Hin. rewrite forallb_forall in H. now apply H.
Qed.

(** X8.  On any clock, a SIGKILL is attempted only after SIGTERM was
    delivered, after a clock reading at least 3 s later than the one taken
    right after SIGTERM, and without any poll having found the child
    exited. *)
Theorem sigkill_only_after_grace (fuel : nat) (te : env) r evs pgid rk :
  _kill_process_group fuel te = Some (r, evs) ->
  In (EKillpg pgid SIGKILL rk) evs ->
  In (EKillpg pgid SIGTERM (Ok tt)) evs /\
  (exists t, In (EMonotonic t) evs /\ (monotonic te 0 + GRACE <= t)%Q) /\
  (forall rc, ~ In (EPoll (Some rc)) evs).
Proof.
  unfold _kill_process_group. intros H Hin.
  destruct (getpgid te) as [pg|x].
  2:{ destruct x; inversion H; subst; destruct Hin as [Hin|[]]; discriminate. }
  destruct (killpg te SIGTERM) as [[]|x].
  2:{ destruct x; inversion H; subst;
        destruct Hin as [Hin|[Hin|[]]]; discriminate. }
  destruct (wait_for_exit fuel te _ 0) as [[w wevs]|] eqn:E; [|discriminate].
  pose proof (wait_for_exit_events _ _ _ _ _ _ E) as Hw.
  pose proof (wait_for_exit_outcome _ _ _ _ _ _ E) as Hout.
  assert (Hnot : ~ In (EKillpg pgid SIGKILL rk) wevs).
  { intros Hin'. apply (wait_events_in _ _ Hw) in Hin'. discriminate. }
  destruct w.
  - inversion H; subst. exfalso.
    destruct Hin as [Hin|[Hin|[Hin|[Hin|Hin]]]]; try discriminate; auto.
  - destruct Hout as [(t & Ht & Hle) Hnone].
    assert (Hpg : pg = pgid /\
                  forall tail, (forall ev, In ev tail -> is_wait ev = false) ->
                    (forall rc, ~ In (EPoll (Some rc))
                       ([EGetpgid (Ok pg); EKillpg pg SIGTERM (Ok tt);
                         EWrite (LSentSIGTERM pg);
                         EMonotonic (monotonic te 0)] ++ wevs ++ tail))).
    { split.
      - destruct (killpg te SIGKILL) as [[]|x]; [|destruct x];
          inversion H; subst;
          destruct Hin as [Hin|[Hin|[Hin|[Hin|Hin]]]]; try discriminate;
          cbn [app] in Hin;
          apply in_app_or in Hin as [Hin|Hin]; try contradiction;
          simpl in Hin; intuition (try discriminate; congruence).
      - intros tail Htail rc Hrc.
        destruct Hrc as [Hrc|[Hrc|[Hrc|[Hrc|Hrc]]]]; try discriminate.
        cbn [app] in Hrc.
        apply in_app_or in Hrc as [Hrc|Hrc]; [now apply Hnone in Hrc|].
        apply Htail in Hrc. discriminate. }
    destruct Hpg as [-> Hpolls].
    assert (Hevs : exists tail,
              evs = [EGetpgid (Ok pgid); EKillpg pgid SIGTERM (Ok tt);
                     EWrite (LSentSIGTERM pgid);
                     EMonotonic (monotonic te 0)] ++ wevs ++ tail /\
              forall ev, In ev tail -> is_wait ev = false).
    { destruct (killpg te SIGKILL) as [[]|x]; [|destruct x];
        inversion H; subst; eexists; (split; [reflexivity|]);
        intros ev Hev; simpl in Hev;
        intuition (subst; reflexivity). }
    destruct Hevs as (tail & -> & Htail).
    repeat split.
    + simpl. auto.
    + exists t. split; [|exact Hle].
      apply in_or_app. right. apply in_or_app. now left.
    + now apply Hpolls.
Qed.

Lemma sigkill_only_after_grace_witness :
  exists r evs,
    _kill_process_group 16 stubborn_child = Some (r, evs) /\
    In (EKillpg 4242 SIGKILL (Ok tt)) evs /\
    In (EKillpg 4242 SIGTERM (Ok tt)) evs /\
    (exists t, In (EMonotonic t) evs
               /\ (monotonic stubborn_child 0 + GRACE <= t)%Q) /\
    (forall rc, ~ In (EPoll (Some rc)) evs).
Proof.
  destruct (_kill_process_group 16 stubborn_child) as [[r evs]|] eqn:E.
  2:{ vm_compute in E. discriminate E. }
  assert (Hin : In (EKillpg 4242 SIGKILL (Ok tt)) evs).
  { pose proof E as E'. vm_compute in E'. inversion E'; subst.
    repeat (first [left; reflexivity | right]). }
  exists r, evs. split; [reflexivity|]. split; [exact Hin|].
  exact (sigkill_only_after_grace 16 stubborn_child r evs 4242 (Ok tt) E Hin).
Defined.

(** X9.  The terminator's log lines tell what happened: "Sent SIGTERM" /
    "Sent SIGKILL" is in the log exactly when the corresponding [os.killpg]
    succeeded, and every signal goes to the group [os.getpgid] returned. *)
Theorem terminator_log_matches_signals (fuel : nat) (te : env) r evs :
  _kill_process_group fuel te = Some (r, evs) ->
  (forall pgid, In (EWrite (LSentSIGTERM pgid)) evs <->
                In (EKillpg pgid SIGTERM (Ok tt)) evs) /\
  (forall pgid, In (EWrite (LSentSIGKILL pgid)) evs <->
                In (EKillpg pgid SIGKILL (Ok tt)) evs) /\
  (forall pgid sg rk, In (EKillpg pgid sg rk) evs -> getpgid te = Ok pgid).
Proof.
  unfold _kill_process_group. intros H.
  destruct (getpgid te) as [pg|x].
  2:{ destruct x; inversion H; subst; repeat split;
        simpl; intuition discriminate. }
  destruct (killpg te SIGTERM) as [[]|x].
  2:{ destruct x; inversion H; subst; repeat split;
        simpl; intuition (try discriminate; congruence). }
  destruct (wait_for_exit fuel te _ 0) as [[w wevs]|] eqn:E; [|discriminate].
  pose proof (wait_for_exit_events _ _ _ _ _ _ E) as Hw. clear E.
  assert (Hnot : forall ev, is_wait ev = false -> ~ In ev wevs).
  { intros ev Hev Hin. apply (wait_events_in _ _ Hw) in Hin. congruence. }
  destruct w; [|destruct (killpg te SIGKILL) as [[]|x]; [|destruct x]];
    inversion H; subst; clear H;
    (repeat split; intros;
     repeat match goal with
            | Hin : In _ (_ ++ _) |- _ => apply in_app_or in Hin
            | Hin : _ \/ _ |- _ => destruct Hin
            | Hin : In _ (_ :: _) |- _ => simpl in Hin
            | Hin : In _ [] |- _ => destruct Hin
            | Hf : False |- _ => destruct Hf
            | Hin : In ?ev wevs |- _ =>
                exfalso; apply (Hnot ev); [reflexivity | exact Hin]
            | Heq : @eq event _ _ |- _ =>
                first [discriminate Heq | inversion Heq; subst; clear Heq]
            end;
     try reflexivity;
     simpl; rewrite ?in_app_iff; simpl; auto 10).
Qed.

Lemma terminator_log_matches_signals_witness :
  exists r evs,
    _kill_process_group 16 stubborn_child = Some (r, evs) /\
    (In (EWrite (LSentSIGKILL 4242)) evs <->
     In (EKillpg 4242 SIGKILL (Ok tt)) evs) /\
    (forall pgid sg rk, In (EKillpg pgid sg rk) evs ->
                        getpgid stubborn_child = Ok pgid).
Proof.
  destruct (_kill_process_group 16 stubborn_child) as [[r evs]|] eqn:E.
  2:{ vm_compute in E. discriminate E. }
  exists r, evs. split; [reflexivity|].
  destruct (terminator_log_matches_signals 16 stubborn_child r evs E)
    as (_ & Hkill & Hpg).
  split; [exact (Hkill 4242)|exact Hpg].
Defined.

(** The wait loop ends as soon as the clock shows the deadline or a poll
    finds the child exited. *)
Lemma wait_for_exit_returns (te : env) (deadline : Q) (k : nat) :
  ((deadline <= monotonic te (S k))%Q \/ polls te k <> None) ->
  forall n j, (j + n = k)%nat ->
    exists w evs, forall fuel, (n < fuel)%nat ->
      wait_for_exit fuel te deadline j = Some (w, evs).
Proof.
  intros Hend n. induction n as [|n IH]; intros j Hj.
  - assert (j = k) by lia. subst j.
    destruct (Qlt_bool (monotonic te (S k)) deadline) eqn:Hlt.
    + destruct Hend as [Hle|Hpoll].
      { apply Qlt_bool_true in Hlt. apply Qle_not_lt in Hle. contradiction. }
      destruct (polls te k) as [rc|] eqn:Hp; [|congruence].
      exists ChildExited, [EMonotonic (monotonic te (S k)); EPoll (Some rc)].
      intros [|fuel] Hf; [lia|]. simpl. now rewrite Hlt, Hp.
    + exists GraceExpired, [EMonotonic (monotonic te (S k))].
      intros [|fuel] Hf; [lia|]. simpl. now rewrite Hlt.
  - destruct (Qlt_bool (monotonic te (S j)) deadline) eqn:Hlt.
    + destruct (polls te j) as [rc|] eqn:Hp.
      * exists ChildExited, [EMonotonic (monotonic te (S j)); EPoll (Some rc)].
        intros [|fuel] Hf; [lia|]. simpl. now rewrite Hlt, Hp.
      * destruct (IH (S j)) as (w & evs & Hrun); [lia|].
        exists w, (EMonotonic (monotonic te (S j)) :: EPoll None
                     :: ESleep POLL_INTERVAL :: evs).
        intros [|fuel] Hf; [lia|]. simpl. rewrite Hlt, Hp.
        now rewrite (Hrun fuel) by lia.
    + exists GraceExpired, [EMonotonic (monotonic te (S j))].
      intros [|fuel] Hf; [lia|]. simpl. now rewrite Hlt.
Qed.

(** X10.  On any clock, the terminator returns as soon as a reading shows
    3 s elapsed since SIGTERM or a poll finds the child exited: if that
    happens at the [k]-th round, [k] + 1 rounds of the wait loop suffice. *)
Theorem kill_process_group_returns (te : env) (k : nat) :
  ((monotonic te 0 + GRACE <= monotonic te (S k))%Q \/ polls te k <> None) ->
  exists r evs, forall fuel, (k < fuel)%nat ->
    _kill_process_group fuel te = Some (r, evs).
Proof.
  intros Hend.
  destruct (wait_for_exit_returns te _ k Hend k 0%nat eq_refl)
    as (w & wevs & Hrun).
  unfold _kill_process_group.
  destruct (getpgid te) as [pg|x].
  2:{ destruct x; eexists; eexists; intros; reflexivity. }
  destruct (killpg te SIGTERM) as [[]|x].
  2:{ destruct x; eexists; eexists; intros; reflexivity. }
  destruct w.
  - eexists. eexists. intros fuel Hf. rewrite (Hrun fuel Hf). reflexivity.
  - destruct (killpg te SIGKILL) as [[]|x]; [|destruct x];
      eexists; eexists; intros fuel Hf; rewrite (Hrun fuel Hf); reflexivity.
Qed.

Lemma kill_process_group_returns_witness :
  exists r evs, forall fuel, (15 < fuel)%nat ->
    _kill_process_group fuel stubborn_child = Some (r, evs).
Proof.
  apply (kill_process_group_returns stubborn_child 15).
  left. vm_compute. discriminate.
Defined.

End TerminatorMore.

(** ** More on the supervisor loop *)

Module SupervisorMore.
Import Supervisor Observations SupervisorFacts.

Lemma run_halted (a : Args) (ss : session) (inputs : list input) s :
  halted s <> None -> run a ss s inputs = (s, []).
Proof.
  intros Hs. induction inputs as [|i rest IH]; [reflexivity|].
  rewrite run_cons.
  assert (Hr : react a ss s i = None).
  { unfold halted in Hs. destruct i; unfold react, step;
      destruct (pc s); try congruence; reflexivity. }
  now rewrite Hr.
Qed.

(** *** Shutdown *)

Lemma stop_step (a : Args) (ss : session) s e :
  stop s = true ->
  terminator_returns e = true ->
  halted s = None ->
  exists s' evs,
    step a ss s e = Some (s', evs) /\
    stop s' = true /\
    (steps_to_halt s' < steps_to_halt s)%nat.
Proof.
  intros Hs He Hh. destruct s as [st rs l]. simpl in Hs. subst st.
  unfold terminator_returns in He.
  unfold halted in Hh. unfold step, steps_to_halt. cbn [pc stop restarts goto].
  destruct l; try discriminate; cbn [set_stop pc stop restarts goto].
  - eexists; eexists; repeat split. simpl. lia.
  - destruct (deadline_reached a _); eexists; eexists; repeat split;
      simpl; lia.
  - destruct (o_popen e) as [pid|[]]; eexists; eexists; repeat split;
      simpl; lia.
  - destruct (o_poll e); eexists; eexists; repeat split; simpl; lia.
  - destruct (deadline_reached a _); eexists; eexists; repeat split;
      simpl; lia.
  - destruct (Terminator._kill_process_group _ _) as [[[[]|x] tevs]|];
      try discriminate; eexists; eexists; repeat split; simpl; lia.
  - destruct remaining; eexists; eexists; repeat split; simpl; lia.
  - eexists; eexists; repeat split. simpl. lia.
Qed.

Lemma steps_to_halt_zero (s : state) :
  steps_to_halt s = 0%nat -> halted s <> None.
Proof.
  unfold steps_to_halt, halted. destruct (pc s); discriminate.
Qed.

Lemma stop_run_halts (a : Args) (ss : session) (es : list oracle) :
  forall s,
    stop s = true ->
    forallb terminator_returns es = true ->
    (steps_to_halt s <= List.length es)%nat ->
    halted (fst (run a ss s (map Step es))) <> None.
Proof.
  induction es as [|e es IH]; intros s Hs Hes Hlen.
  - simpl in *. apply steps_to_halt_zero. lia.
  - simpl in Hes. apply andb_true_iff in Hes as [He Hes].
    destruct (halted s) eqn:Hh.
    + rewrite run_halted by congruence. simpl. congruence.
    + destruct (stop_step a ss s e Hs He Hh) as (s' & evs & Hstep & Hs' & Hlt).
      cbn [map]. rewrite run_cons. unfold react. rewrite Hstep. simpl.
      apply IH; auto. simpl in Hlen. lia.
Qed.

(** X11.  Once the stop flag is set, five steps of the loop end the
    process, whatever the child does and wherever the loop stands, as long
    as the terminator returns when it is called. *)
Theorem stop_halts_within_five_steps (a : Args) (ss : session)
  (s : state) (es : list oracle) :
  stop s = true ->
  forallb terminator_returns es = true ->
  (5 <= List.length es)%nat ->
  halted (fst (run a ss s (map Step es))) <> None.
Proof.
  intros Hs Hes Hlen. apply stop_run_halts; auto.
  unfold steps_to_halt. destruct (pc s); lia.
Qed.

Lemma stop_halts_within_five_steps_witness :
  halted (fst (run default_args sample_session
                   (set_stop (goto init AtGuard))
                   (map Step [running; running; running; running; running])))
  <> None.
Proof.
  apply stop_halts_within_five_steps; [reflexivity|reflexivity|].
  simpl. lia.
Defined.

(** *** The restart delay *)

Lemma delay_ticks (a : Args) (ss : session) (e : oracle) s :
  stop s = false ->
  forall k n,
    run a ss (goto s (AtDelay (k + n))) (repeat (Step e) k) =
    (goto s (AtDelay n), repeat (ESleep 1) k).
Proof.
  intros Hs. induction k as [|k IH]; intros n; [reflexivity|].
  change (repeat (Step e) (S k)) with (Step e :: repeat (Step e) k).
  rewrite run_cons. unfold react, step. cbn [pc stop goto Nat.add]. rewrite Hs.
  change (goto (goto s (AtDelay (S (k + n)))) (AtDelay (k + n)))
    with (goto s (AtDelay (k + n))).
  rewrite IH. reflexivity.
Qed.

(** X12.  A signal that arrives during the restart delay, after [k] of its
    [k + n] one-second ticks, ends the wait at once: nothing more is slept,
    no child is started, and three steps later the process has ended
    normally. *)
Theorem delay_is_interruptible (a : Args) (ss : session) (e : oracle)
  (s : state) (k n : nat) (sg : signum) :
  stop s = false ->
  installed sg = true ->
  run a ss (goto s (AtDelay (k + n)))
      (repeat (Step e) k ++ [Signal sg; Step e; Step e; Step e]) =
  (goto (set_stop s) (Halted Returned),
   repeat (ESleep 1) k ++
   [EPrint (MReceivedSignal sg);
    EWrite LSessionEnded; ECloseLog; EMonotonic (o_clock e);
    EPrint (MDone (int_of (o_clock e - session_start ss)) (restarts s + 1))]).
Proof.
  intros Hs Hsg.
  rewrite run_app, (delay_ticks a ss e s Hs k n). cbn [fst snd].
  assert (Hgo : run a ss (goto s (AtDelay n))
                    [Signal sg; Step e; Step e; Step e] =
                (goto (set_stop s) (Halted Returned),
                 [EPrint (MReceivedSignal sg);
                  EWrite LSessionEnded; ECloseLog; EMonotonic (o_clock e);
                  EPrint (MDone (int_of (o_clock e - session_start ss))
                                (restarts s + 1))])).
  { cbn [run react]. unfold handle_sig, step.
    cbn [pc stop goto set_stop restarts]. rewrite Hsg.
    destruct n; reflexivity. }
  now rewrite Hgo.
Qed.

Lemma delay_is_interruptible_witness :
  run default_args sample_session (goto init (AtDelay (2 + 3)))
      (repeat (Step running) 2
       ++ [Signal SIGTERM; Step running; Step running; Step running]) =
  (goto (set_stop init) (Halted Returned),
   repeat (ESleep 1) 2 ++
   [EPrint (MReceivedSignal SIGTERM);
    EWrite LSessionEnded; ECloseLog; EMonotonic (o_clock running);
    EPrint (MDone (int_of (o_clock running - session_start sample_session))
                  (restarts init + 1))]).
Proof.
  apply delay_is_interruptible; reflexivity.
Defined.

(** *** The log file *)

Lemma log_use_app (xs ys : list event) :
  forall st,
    log_use st (xs ++ ys) =
    match log_use st xs with
    | Some st' => log_use st' ys
    | None => None
    end.
Proof.
  induction xs as [|ev xs IH]; intros st; simpl; [reflexivity|].
  destruct ev; auto; destruct st; auto.
Qed.

Lemma log_use_terminator (evs : list event) :
  forallb Terminator.is_terminator_event evs = true ->
  log_use Opened evs = Some Opened.
Proof.
  induction evs as [|ev evs IH]; simpl; [reflexivity|].
  rewrite andb_true_iff. intros [Hev Hevs].
  destruct ev; try discriminate; auto.
Qed.

Lemma react_log_use (a : Args) (ss : session) s i s' evs :
  react a ss s i = Some (s', evs) ->
  log_use Opened evs =
  Some (match halted s' with Some _ => Closed | None => Opened end).
Proof.
  intros H. destruct s as [st rs l]. unfold halted.
  destruct i as [sg|e].
  - react_cases H; reflexivity.
  - destruct l; try (react_cases H; reflexivity).
    unfold react, step in H. cbn [pc stop restarts goto] in H.
    destruct st.
    + destruct (Terminator._kill_process_group _ _) as [[[[]|x] tevs]|] eqn:E;
        inversion H; subst; clear H;
        apply TerminatorFacts.kill_process_group_events in E;
        rewrite log_use_app, (log_use_terminator _ E); reflexivity.
    + destruct (budget_exhausted a (rs + 1)); inversion H; subst; clear H;
        destruct returncode as [[| |]|]; reflexivity.
Qed.

Lemma run_log_use (a : Args) (ss : session) (inputs : list input) :
  forall s,
    halted s = None ->
    log_use Opened (snd (run a ss s inputs)) =
    Some (match halted (fst (run a ss s inputs)) with
          | Some _ => Closed
          | None => Opened
          end).
Proof.
  induction inputs as [|i rest IH]; intros s Hs.
  - simpl. now rewrite Hs.
  - rewrite run_cons.
    destruct (react a ss s i) as [[s' evs]|] eqn:E; [|now apply IH].
    cbn [fst snd]. rewrite log_use_app, (react_log_use _ _ _ _ _ _ E).
    destruct (halted s') eqn:Hs'.
    + rewrite run_halted by congruence. simpl. now rewrite Hs'.
    + now apply IH.
Qed.

Lemma startup_log_use (evs : list event) :
  forallb startup_only evs = true ->
  log_use NotOpened evs = Some NotOpened.
Proof.
  induction evs as [|ev evs IH]; simpl; [reflexivity|].
  rewrite andb_true_iff. intros [Hev Hevs].
  destruct ev as [| | | | |[]|[]| | | | | |]; try discriminate Hev; auto.
Qed.

Lemma opened_setup (a : Args) (ss : session) (tr : list event) :
  opened (setup a ss ++ tr) = true /\
  log_use NotOpened (setup a ss) = Some Opened.
Proof.
  unfold opened, setup, ensure_dir.
  destruct (out a); destruct (log_dir ss); split; reflexivity.
Qed.

(** X13.  The log file is opened at most once, written to (by the script
    or by a child being started on it) only while it is open, and closed
    exactly when the process ends: a running session has it open, an ended
    session has closed it if it ever opened it.  The sessions that never
    open it are those that end before the loop, rejected by the validation
    or dead in the set-up: their exit status is not 0, nothing is logged
    and no child is started. *)
Theorem log_opened_once_closed_at_exit (a : Args) (ss : session)
  (inputs : list input) :
  log_use NotOpened (snd (main a ss inputs)) =
  Some (match halted (fst (main a ss inputs)) with
        | None => Opened
        | Some _ =>
            if opened (snd (main a ss inputs)) then Closed else NotOpened
        end) /\
  (opened (snd (main a ss inputs)) = false ->
   (exists h, halted (fst (main a ss inputs)) = Some h /\ exit_status h <> 0)
   /\ log_of (snd (main a ss inputs)) = []
   /\ launches (snd (main a ss inputs)) = 0).
Proof.
  unfold main. destruct (validate a).
  { split; [reflexivity|]. intros _. repeat split.
    exists (SysExit 2). split; [reflexivity|discriminate]. }
  set_up_cases a ss evs0 x0 Hev0.
  - pose proof (run_log_use a ss inputs init eq_refl) as H.
    destruct (run a ss init inputs) as [s tr]. cbn [fst snd] in *.
    destruct (opened_setup a ss tr) as [Ho Hs].
    rewrite Ho, log_use_app, Hs. split; [|discriminate].
    rewrite H. now destruct (halted s).
  - cbn [fst snd]. destruct (startup_log evs0 Hev0) as (L1 & _ & L3 & L4).
    rewrite L4, (startup_log_use evs0 Hev0).
    split; [reflexivity|]. intros _. repeat split; auto.
    exists (Uncaught x0). split; [reflexivity|discriminate].
Qed.

Lemma log_opened_once_closed_at_exit_witness :
  (exists h, halted (fst (main default_args directory_as_log [Step running]))
             = Some h /\ exit_status h <> 0) /\
  log_of (snd (main default_args directory_as_log [Step running])) = [] /\
  launches (snd (main default_args directory_as_log [Step running])) = 0.
Proof.
  apply (proj2 (log_opened_once_closed_at_exit default_args directory_as_log
                  [Step running])).
  reflexivity.
Defined.

(** *** Launch markers *)

Lemma launch_indices_app (xs ys : list event) :
  launch_indices (xs ++ ys) = launch_indices xs ++ launch_indices ys.
Proof.
  induction xs as [|ev xs IH]; simpl; [reflexivity|].
  destruct ev; auto. destruct l; simpl; now rewrite ?IH.
Qed.

Lemma launch_indices_count (evs : list event) :
  count_events is_launch_marker evs
  = Z.of_nat (List.length (launch_indices evs)).
Proof.
  unfold count_events. induction evs as [|ev evs IH]; [reflexivity|].
  destruct ev; try exact IH. destruct l; try exact IH.
  simpl. lia.
Qed.

Lemma launch_indices_none (evs : list event) :
  filter is_launch_marker evs = [] -> launch_indices evs = [].
Proof.
  induction evs as [|ev evs IH]; simpl; [reflexivity|].
  destruct ev; auto. destruct l; simpl; auto. discriminate.
Qed.

Lemma react_launch_indices (a : Args) (ss : session) s i s' evs :
  react a ss s i = Some (s', evs) ->
  launch_indices evs =
  match pc s, pc s' with
  | AtLaunch, AtLaunch => []
  | AtLaunch, _ => [restarts s]
  | _, _ => []
  end.
Proof.
  intros H. destruct s as [st rs l].
  destruct i as [sg|e].
  - react_cases H; reflexivity.
  - destruct l; try (react_cases H; reflexivity).
    unfold react, step in H. cbn [pc stop restarts goto] in H.
    destruct st.
    + destruct (Terminator._kill_process_group _ _) as [[[[]|x] tevs]|] eqn:E;
        inversion H; subst; clear H; simpl;
        rewrite launch_indices_app;
        rewrite (launch_indices_none tevs)
          by (apply (terminator_filter is_launch_marker _ _ _ _
                       ltac:(terminator_event) E));
        reflexivity.
    + destruct (budget_exhausted a (rs + 1)); inversion H; subst; clear H;
        destruct returncode as [[| |]|]; reflexivity.
Qed.

Lemma react_numbered (a : Args) (ss : session) s tr i s' evs :
  launch_counts s tr /\
  launch_indices tr = upto (List.length (launch_indices tr)) ->
  react a ss s i = Some (s', evs) ->
  launch_counts s' (tr ++ evs) /\
  launch_indices (tr ++ evs)
  = upto (List.length (launch_indices (tr ++ evs))).
Proof.
  intros [Hc Hn] H. split; [eapply react_launch_counts; eauto|].
  rewrite launch_indices_app, (react_launch_indices _ _ _ _ _ _ H).
  assert (Hnil : launch_indices tr ++ []
                 = upto (List.length (launch_indices tr ++ []))).
  { now rewrite app_nil_r. }
  destruct (pc s) eqn:Hpc; try exact Hnil.
  unfold launch_counts in Hc. rewrite Hpc in Hc. destruct Hc as [_ Hc].
  rewrite launch_indices_count in Hc.
  destruct (pc s'); try exact Hnil;
    rewrite length_app, Nat.add_1_r; simpl; rewrite <- Hn, <- Hc;
    reflexivity.
Qed.

(** X14.  The launch markers in the log are numbered 0, 1, 2, ... in the
    order they were written, without gap or repetition. *)
Theorem launch_markers_numbered (a : Args) (ss : session)
  (inputs : list input) :
  launch_indices (snd (main a ss inputs))
  = upto (List.length (launch_indices (snd (main a ss inputs)))).
Proof.
  unfold main. destruct (validate a); [reflexivity|].
  set_up_cases a ss evs0 x0 Hev0.
  2:{ cbn [snd].
      rewrite (launch_indices_none evs0)
        by (apply startup_filter; [startup_event|exact Hev0]).
      reflexivity. }
  pose proof (run_trace_invariant a ss
                (fun s tr => launch_counts s tr /\
                   launch_indices tr = upto (List.length (launch_indices tr)))
                (react_numbered a ss) inputs init (setup a ss)) as H.
  destruct (run a ss init inputs) as [s tr]. cbn [fst snd] in *.
  apply H. destruct (setup_counts a ss) as (S1 & S2 & _).
  split; [split; assumption|].
  unfold setup, ensure_dir. destruct (out a); destruct (log_dir ss);
    reflexivity.
Qed.

(** *** One child at a time *)

Lemma children_app (xs ys : list event) :
  forall alive,
    children alive (xs ++ ys) =
    match children alive xs with
    | Some alive' => children alive' ys
    | None => None
    end.
Proof.
  induction xs as [|ev xs IH]; intros alive; simpl; [reflexivity|].
  destruct ev; auto.
  - destruct r; auto. destruct alive; auto.
  - destruct r; auto.
Qed.

Lemma children_terminator (evs : list event) :
  forallb Terminator.is_terminator_event evs = true ->
  forall alive, exists alive', children alive evs = Some alive'.
Proof.
  induction evs as [|ev evs IH]; simpl; intros H alive; [eauto|].
  apply andb_true_iff in H as [Hev Hevs].
  destruct ev; try discriminate; auto.
  destruct r; auto.
Qed.

Lemma react_children (a : Args) (ss : session) s tr i s' evs :
  (stop_check_sound s /\
   exists alive, children false tr = Some alive /\
                 (alive = true -> may_have_child s)) ->
  react a ss s i = Some (s', evs) ->
  stop_check_sound s' /\
  exists alive, children false (tr ++ evs) = Some alive /\
                (alive = true -> may_have_child s').
Proof.
  intros (Hsound & alive & Htr & Halive) H.
  rewrite children_app, Htr.
  destruct s as [st rs l]. unfold stop_check_sound, may_have_child in *.
  cbn [pc stop] in Hsound, Halive.
  destruct i as [sg|e].
  - unfold react, handle_sig in H. cbn [pc] in H.
    destruct (installed sg); [|destruct l; discriminate].
    assert (Hs' : s' = set_stop {| stop := st; restarts := rs; pc := l |}
                  /\ evs = [EPrint (MReceivedSignal sg)])
      by (destruct l; inversion H; auto).
    destruct Hs' as [-> ->]. cbn [set_stop pc stop children].
    split; [destruct l as [| | | | |? []| | |]; auto|].
    exists alive. split; [reflexivity|].
    intros Ha. specialize (Halive Ha).
    destruct l as [| | | | |? []| | |]; auto.
  - destruct l as [| | |pid|pid|pid rc|n| |h].
    + react_cases H; simpl; (split; [exact I|]); exists alive;
        (split; [reflexivity|]); auto.
    + react_cases H; simpl; (split; [exact I|]); exists alive;
        (split; [reflexivity|]); auto.
    + assert (Hdead : alive = false)
        by (destruct alive; [now specialize (Halive eq_refl)|reflexivity]).
      subst alive.
      react_cases H; simpl; (split; [exact I|]); eexists;
        (split; [reflexivity|]); auto.
    + react_cases H; simpl; (split; [auto|]); eexists;
        (split; [reflexivity|]); auto; discriminate.
    + react_cases H; simpl; (split; [exact I|]); exists alive;
        (split; [reflexivity|]); auto.
    + unfold react, step in H. cbn [pc stop restarts goto] in H.
      destruct st.
      * destruct (Terminator._kill_process_group _ _)
          as [[[[]|x] tevs]|] eqn:E;
          inversion H; subst; clear H; simpl; (split; [exact I|]);
          apply TerminatorFacts.kill_process_group_events in E;
          rewrite children_app;
          destruct (children_terminator tevs E alive) as (alive' & ->);
          exists alive'; split; auto.
      * assert (Hdead : alive = false).
        { destruct alive; [|reflexivity].
          destruct rc; [now specialize (Halive eq_refl)|discriminate]. }
        subst alive.
        destruct (budget_exhausted a (rs + 1)); inversion H; subst; clear H;
          simpl; (split; [exact I|]); exists false;
          (split; [destruct rc as [[| |]|]; reflexivity|discriminate]).
    + react_cases H; simpl; (split; [exact I|]); exists alive;
        (split; [reflexivity|]); auto.
    + react_cases H; simpl; (split; [exact I|]); exists alive;
        (split; [reflexivity|]); auto.
    + discriminate.
Qed.

(** X15.  The supervisor runs one child at a time: in every session a child
    is started only when none was started before or the last one started
    has been polled as exited. *)
Theorem one_child_at_a_time (a : Args) (ss : session) (inputs : list input) :
  children false (snd (main a ss inputs)) <> None.
Proof.
  unfold main. destruct (validate a); [discriminate|].
  set_up_cases a ss evs0 x0 Hev0.
  2:{ cbn [snd]. clear - Hev0.
      assert (H : children false evs0 = Some false).
      { induction evs0 as [|ev evs IH]; [reflexivity|].
        simpl in Hev0. apply andb_true_iff in Hev0 as [Hev Hevs].
        destruct ev as [| | | | |[]|[]| | | | | |]; try discriminate Hev;
          simpl; auto. }
      rewrite H. discriminate. }
  pose proof (run_trace_invariant a ss
                (fun s tr => stop_check_sound s /\
                   exists alive, children false tr = Some alive /\
                                 (alive = true -> may_have_child s))
                (react_children a ss) inputs init (setup a ss)) as H.
  destruct (run a ss init inputs) as [s tr]. cbn [fst snd] in *.
  destruct H as (_ & alive & -> & _); [|discriminate].
  split; [exact I|]. exists false. split; [|discriminate].
  unfold setup, ensure_dir. destruct (out a); destruct (log_dir ss);
    reflexivity.
Qed.

(** *** How a session ends *)

Lemma last_line_app (tr : list event) l tail :
  log_of tail = [] ->
  last_line (tr ++ EWrite l :: tail) = Some l.
Proof.
  intros Htail. unfold last_line.
  rewrite log_of_app. simpl. rewrite Htail, map_app. simpl.
  apply last_last.
Qed.

Lemma react_end_marker (a : Args) (ss : session) s tr i s' evs :
  end_marker_state s tr ->
  react a ss s i = Some (s', evs) ->
  end_marker_state s' (tr ++ evs).
Proof.
  intros Hs H. destruct s as [st rs l]. unfold end_marker_state in *.
  rewrite count_events_app.
  destruct i as [sg|e].
  - react_cases H; simpl in *; unfold count_events in *; simpl; lia.
  - destruct l;
      try (react_cases H; simpl in *;
           first [ split; [unfold count_events in *; simpl; lia
                          |now apply last_line_app]
                 | split; [reflexivity|unfold count_events in *; simpl; lia]
                 | unfold count_events in *; simpl; lia ]).
    unfold react, step in H. cbn [pc stop restarts goto] in H. simpl in Hs.
    destruct st.
    + destruct (Terminator._kill_process_group _ _) as [[[[]|x] tevs]|] eqn:E;
        inversion H; subst; clear H; simpl;
        rewrite count_events_app,
          (count_events_none is_session_end tevs)
          by (apply (terminator_filter is_session_end _ _ _ _
                       ltac:(terminator_event) E));
        unfold count_events in *; simpl; lia.
    + destruct (budget_exhausted a (rs + 1)); inversion H; subst; clear H;
        simpl; destruct returncode as [[| |]|];
        unfold count_events in *; simpl; lia.
Qed.

(** X16.  The exit status of the process tells how the session went.  It
    is 0, 1 or 2.  It is 2 exactly when the arguments were rejected, and
    then nothing was logged.  It is 0 exactly when the loop ended by itself
    (stop, deadline or restart limit), and exactly then the log ends with
    the session-end marker, written once; after a launch failure or an
    uncaught exception (in the set-up or in the loop) the status is 1 and
    the marker is missing.  The log of every session that opened its log
    starts with the session header and the command line; a session that
    never opened it has logged nothing. *)
Theorem exit_status_tells_outcome (a : Args) (ss : session)
  (inputs : list input) (h : halt) :
  halted (fst (main a ss inputs)) = Some h ->
  (exit_status h = 0 \/ exit_status h = 1 \/ exit_status h = 2) /\
  (exit_status h = 2 <-> validate a <> None) /\
  (exit_status h = 2 -> log_of (snd (main a ss inputs)) = []) /\
  (exit_status h = 0 <-> h = Returned) /\
  (exit_status h = 0 <->
   last_line (snd (main a ss inputs)) = Some LSessionEnded) /\
  count_events is_session_end (snd (main a ss inputs)) =
    (if exit_status h =? 0 then 1 else 0) /\
  (if opened (snd (main a ss inputs))
   then exists rest,
          log_of (snd (main a ss inputs)) =
          LSessionStarted :: LCmd (cmd ss) :: rest
   else log_of (snd (main a ss inputs)) = []).
Proof.
  unfold main. destruct (validate a) as [msg|] eqn:Hv.
  - simpl. intros Hh. inversion Hh; subst. simpl.
    repeat split; try discriminate; try lia; auto.
  - set_up_cases a ss evs0 x0 Hev0.
    2:{ cbn [fst snd]. intros Hh. inversion Hh; subst. simpl.
        destruct (startup_log evs0 Hev0) as (L1 & _ & _ & L4).
        rewrite L4. unfold last_line. rewrite L1.
        rewrite (count_events_none is_session_end evs0)
          by (apply startup_filter; [startup_event|exact Hev0]).
        repeat split; auto; try discriminate; try lia; try congruence;
          intros; try lia; try contradiction; try discriminate. }
    pose proof (run_trace_invariant a ss end_marker_state
                  (react_end_marker a ss) inputs init (setup a ss)) as H.
    destruct (setup_counts a ss) as (_ & _ & S3 & _).
    assert (S0 : count_events is_session_end (setup a ss) = 0).
    { unfold setup, ensure_dir. destruct (out a); destruct (log_dir ss);
        reflexivity. }
    destruct (run a ss init inputs) as [s tr]. cbn [fst snd] in *.
    specialize (H S0). unfold end_marker_state, halted in *.
    intros Hh.
    assert (Hhead : if opened (setup a ss ++ tr)
                    then exists rest,
                           log_of (setup a ss ++ tr) =
                           LSessionStarted :: LCmd (cmd ss) :: rest
                    else log_of (setup a ss ++ tr) = []).
    { rewrite (proj1 (opened_setup a ss tr)).
      exists (log_of tr). now rewrite log_of_app, S3. }
    assert (Hlast : count_events is_session_end (setup a ss ++ tr) = 0 ->
                    last_line (setup a ss ++ tr) <> Some LSessionEnded).
    { intros Hc Hl. unfold last_line in Hl. rewrite log_of_app, S3 in Hl.
      unfold count_events in Hc. rewrite filter_app in Hc.
      replace (filter is_session_end (setup a ss)) with (@nil event) in Hc
        by (unfold setup, ensure_dir; destruct (out a); destruct (log_dir ss);
            reflexivity).
      simpl in Hc. clear - Hc Hl.
      assert (Hnone : forall evs, filter is_session_end evs = [] ->
                ~ In LSessionEnded (log_of evs)).
      { induction evs as [|ev evs IH]; simpl; [tauto|].
        destruct ev; auto. destruct l; simpl; try discriminate;
          intros Hf [Hx|Hx]; try discriminate; now apply IH. }
      assert (Hf : filter is_session_end tr = []).
      { destruct (filter is_session_end tr); [reflexivity|simpl in Hc; lia]. }
      apply Hnone in Hf.
      assert (Hin : In (Some LSessionEnded)
                       (map Some ([LSessionStarted; LCmd (cmd ss)]
                                  ++ log_of tr))).
      { rewrite <- Hl at 1.
        destruct (exists_last (l := map Some ([LSessionStarted; LCmd (cmd ss)]
                                               ++ log_of tr)))
          as (front & x & Hfx); [discriminate|].
        rewrite Hfx at 1 2. rewrite last_last. apply in_or_app.
        right. now left. }
      apply in_map_iff in Hin as (x & Hx & Hin). inversion Hx; subst.
      destruct Hin as [Hin|[Hin|Hin]]; try discriminate. contradiction. }
    destruct (pc s) as [| | | | | | | |[| status |x]]; try discriminate;
      inversion Hh; subst; simpl.
    + destruct H as [Hc Hl]. rewrite Hc.
      repeat split; auto; try discriminate; try lia; congruence.
    + destruct H as [-> Hc]. rewrite Hc. simpl.
      specialize (Hlast Hc).
      repeat split; auto; try discriminate; try lia; try congruence;
        intros; try lia; try contradiction.
    + rewrite H. specialize (Hlast H).
      repeat split; auto; try discriminate; try lia; try congruence;
        intros; try lia; try contradiction.
Qed.

Lemma exit_status_tells_outcome_witness :
  exit_status Returned = 0 /\
  last_line (snd (main default_args sample_session
                       [Step running; Step running; Step running;
                        Step running; Signal SIGINT;
                        Step running; Step running; Step running;
                        Step running])) = Some LSessionEnded.
Proof.
  pose proof (exit_status_tells_outcome default_args sample_session
                [Step running; Step running; Step running;
                 Step running; Signal SIGINT;
                 Step running; Step running; Step running;
                 Step running] Returned eq_refl)
    as (_ & _ & _ & _ & H & _).
  split; [reflexivity|]. apply H. reflexivity.
Defined.

(** *** Limits set to zero *)

Lemma react_unlimited (a : Args) (ss : session) s i s' evs :
  react a ss s i = Some (s', evs) ->
  (max_duration a = 0 -> filter is_deadline_marker evs = []) /\
  (max_restarts a = 0 -> filter is_budget_marker evs = []).
Proof.
  intros H.
  assert (Hd : max_duration a = 0 -> forall x, deadline_reached a x = false)
    by (intros E x; unfold deadline_reached; now rewrite E).
  assert (Hb : max_restarts a = 0 -> forall n, budget_exhausted a n = false)
    by (intros E n; unfold budget_exhausted; now rewrite E).
  destruct s as [st rs l].
  destruct i as [sg|e].
  - react_cases H; split; reflexivity.
  - destruct l;
      try (react_cases H; split; intros E; try reflexivity;
           match goal with
           | Heq : deadline_reached _ _ = true |- _ =>
               rewrite (Hd E) in Heq; discriminate Heq
           end).
    unfold react, step in H. cbn [pc stop restarts goto] in H.
    destruct st.
    + destruct (Terminator._kill_process_group _ _) as [[[[]|x] tevs]|] eqn:E;
        inversion H; subst; clear H; split; intros _; rewrite filter_app;
        first [ rewrite (terminator_filter is_deadline_marker _ _ _ _
                           ltac:(terminator_event) E)
              | rewrite (terminator_filter is_budget_marker _ _ _ _
                           ltac:(terminator_event) E) ];
        reflexivity.
    + destruct (budget_exhausted a (rs + 1)) eqn:Hbe;
        inversion H; subst; clear H; split; intros E;
        try (rewrite (Hb E) in Hbe; discriminate Hbe);
        destruct returncode as [[| |]|]; reflexivity.
Qed.

(** X17.  A limit of 0 is no limit: with [--max-duration 0] no session
    ever writes a "max duration reached" line, at whatever time the clock
    shows, and with [--max-restarts 0] none ever writes the "max restarts
    reached" line, however often ffmpeg exits. *)
Theorem zero_means_unlimited (a : Args) (ss : session) (inputs : list input) :
  (max_duration a = 0 ->
   count_events is_deadline_marker (snd (main a ss inputs)) = 0) /\
  (max_restarts a = 0 ->
   count_events is_budget_marker (snd (main a ss inputs)) = 0).
Proof.
  assert (Hrun : forall s,
            (max_duration a = 0 ->
             filter is_deadline_marker (snd (run a ss s inputs)) = []) /\
            (max_restarts a = 0 ->
             filter is_budget_marker (snd (run a ss s inputs)) = [])).
  { induction inputs as [|i rest IH]; intros s; [split; reflexivity|].
    rewrite run_cons.
    destruct (react a ss s i) as [[s' evs]|] eqn:E; [|apply IH].
    destruct (react_unlimited _ _ _ _ _ _ E) as [H1 H2].
    destruct (IH s') as [H3 H4]. cbn [snd].
    split; intros Hz; rewrite filter_app;
      [rewrite (H1 Hz), (H3 Hz)|rewrite (H2 Hz), (H4 Hz)]; reflexivity. }
  unfold main. destruct (validate a); [split; reflexivity|].
  set_up_cases a ss evs0 x0 Hev0.
  2:{ cbn [snd]. split; intros _; apply count_events_none;
        apply startup_filter; try exact Hev0; startup_event. }
  specialize (Hrun init).
  destruct (run a ss init inputs) as [s tr]. cbn [snd] in *.
  destruct Hrun as [H1 H2].
  split; intros Hz; apply count_events_none; rewrite filter_app;
    [rewrite (H1 Hz)|rewrite (H2 Hz)];
    unfold setup, ensure_dir; destruct (out a); destruct (log_dir ss);
    reflexivity.
Qed.

Lemma zero_means_unlimited_witness :
  count_events is_budget_marker
    (snd (main default_args sample_session (repeat (Step failing) 40))) = 0.
Proof.
  exact (proj2 (zero_means_unlimited default_args sample_session
                  (repeat (Step failing) 40)) eq_refl).
Defined.

End SupervisorMore.
